(** * A Redis-like server in Go: protocol decoder, registry, handlers, store

    Shallow embedding of [app/server.go] (the version with the key-value
    store: [RedisServer], [handleSetCommand], [handleGetCommand]).

    Conventions of the embedding.
    - A Go [string] / [[]byte] is a Rocq [string]: a sequence of 8-bit bytes.
    - A Go [int] is a 64-bit signed integer, carried as a [Z] in
      [minInt .. maxInt]; arithmetic that can leave the range is wrapped with
      [wrap64].
    - [interface{}] values produced by the decoder are [value]s: [nil], a
      string, or a slice of values.
    - The [bufio.Reader] of a connection is the string of bytes that are still
      to come before the peer closes; a read that needs more bytes than remain
      fails with an [error], as the Go reader does at end of stream.
    - [time.Time] is a count of nanoseconds on the process clock and
      [time.Now()] is an explicit argument [now] of each handler.
    - A run-time panic (nil function call, negative [make] length, slice
      bounds) is the outcome [Panic]: it is not an [error] value and no
      caller in the program recovers from it. *)

From Stdlib Require Import ZArith Ascii String List Lia Bool.
From stdpp Require Import base gmap strings list fin_maps.

Local Open Scope string_scope.
Local Open Scope Z_scope.

(** ** Machine integers *)

Definition maxInt : Z := 9223372036854775807.
Definition minInt : Z := -9223372036854775808.

Definition inInt (z : Z) : bool := (minInt <=? z) && (z <=? maxInt).

(** Two's complement wrap-around of a 64-bit signed result. *)
Definition wrap64 (z : Z) : Z := (z + 2 ^ 63) mod 2 ^ 64 - 2 ^ 63.

(** ** Bytes and strings *)

Definition CR : ascii := ascii_of_nat 13.
Definition LF : ascii := ascii_of_nat 10.
Definition CRLF : string := String CR (String LF EmptyString).

Definition byteVal (c : ascii) : Z := Z.of_nat (nat_of_ascii c).

(** [len(s)] *)
Definition len (s : string) : Z := Z.of_nat (String.length s).

(** [strings.ToUpper]: bytes ['a'..'z'] are mapped to ['A'..'Z'], every other
    byte is kept.  This is the library function on ASCII strings; letters
    outside ASCII (multi-byte UTF-8) are not case-mapped in this model. *)
Definition toUpperByte (c : ascii) : ascii :=
  if (97 <=? byteVal c) && (byteVal c <=? 122)
  then ascii_of_nat (nat_of_ascii c - 32) else c.

Fixpoint ToUpper (s : string) : string :=
  match s with
  | EmptyString => EmptyString
  | String c r => String (toUpperByte c) (ToUpper r)
  end.

(** White space as [strings.TrimSpace] sees it on ASCII input:
    ['\t'], ['\n'], ['\v'], ['\f'], ['\r'], [' ']. *)
Definition isSpace (c : ascii) : bool :=
  let n := byteVal c in ((9 <=? n) && (n <=? 13)) || (n =? 32).

Fixpoint trimLeft (s : string) : string :=
  match s with
  | EmptyString => EmptyString
  | String c r => if isSpace c then trimLeft r else s
  end.

Fixpoint trimRight (s : string) : string :=
  match s with
  | EmptyString => EmptyString
  | String c r =>
      match trimRight r with
      | EmptyString => if isSpace c then EmptyString else String c EmptyString
      | r' => String c r'
      end
  end.

Definition TrimSpace (s : string) : string := trimLeft (trimRight s).

(** [strconv.Atoi]: an optional sign, then one or more decimal digits, and the
    value has to fit an [int]; anything else is an error ([None]). *)
Definition digitVal (c : ascii) : option Z :=
  let n := byteVal c in
  if (48 <=? n) && (n <=? 57) then Some (n - 48) else None.

Fixpoint parseDigits (acc : Z) (s : string) : option Z :=
  match s with
  | EmptyString => Some acc
  | String c r =>
      match digitVal c with
      | Some d => parseDigits (acc * 10 + d) r
      | None => None
      end
  end.

Definition parseUnsigned (s : string) : option Z :=
  match s with
  | EmptyString => None
  | _ => parseDigits 0 s
  end.

Definition Atoi (s : string) : option Z :=
  match s with
  | EmptyString => None
  | String c r =>
      let neg := Ascii.eqb c "-" in
      let body := if neg || Ascii.eqb c "+" then r else s in
      match parseUnsigned body with
      | Some n =>
          let v := if neg then - n else n in
          if inInt v then Some v else None
      | None => None
      end
  end.

(** The verb [%d] of [fmt.Sprintf] on an [int]. *)
Definition digitChar (d : Z) : ascii := ascii_of_nat (Z.to_nat (48 + d)).

Fixpoint digitsOf (fuel : nat) (n : Z) (acc : string) : string :=
  match fuel with
  | O => acc
  | S f =>
      let acc' := String (digitChar (n mod 10)) acc in
      if n <? 10 then acc' else digitsOf f (n / 10) acc'
  end.

Definition formatNat (n : Z) : string :=
  digitsOf (S (Z.to_nat (Z.log2 n))) n EmptyString.

Definition formatInt (n : Z) : string :=
  if n <? 0 then String "-" (formatNat (- n)) else formatNat n.

(** [bufio.Reader.ReadString('\n')]: the bytes up to and including the first
    line feed, and the rest of the stream; [None] when the stream ends before
    a line feed (the reader then returns [io.EOF]). *)
Fixpoint ReadString (r : string) : option (string * string) :=
  match r with
  | EmptyString => None
  | String c r' =>
      if Ascii.eqb c LF then Some (String c EmptyString, r')
      else match ReadString r' with
           | Some (line, rest) => Some (String c line, rest)
           | None => None
           end
  end.

(** [io.ReadFull(reader, buf)] with [len(buf) = n]: the first [n] bytes and
    the rest, or [None] when fewer than [n] bytes remain.  The recursion is on
    the stream, so a huge [n] costs no more than the stream is long. *)
Fixpoint ReadFull (r : string) (n : Z) {struct r} : option (string * string) :=
  if n <=? 0 then Some (EmptyString, r)
  else match r with
       | EmptyString => None
       | String c r' =>
           match ReadFull r' (n - 1) with
           | Some (buf, rest) => Some (String c buf, rest)
           | None => None
           end
       end.

(** [buf[:k]] for [0 <= k <= len(buf)] *)
Fixpoint takeBytes (s : string) (k : Z) {struct s} : string :=
  if k <=? 0 then EmptyString
  else match s with
       | EmptyString => EmptyString
       | String c r => String c (takeBytes r (k - 1))
       end.

(** [strings.Join(elems, sep)] *)
Fixpoint Join (elems : list string) (sep : string) : string :=
  match elems with
  | [] => EmptyString
  | [e] => e
  | e :: rest => e +:+ sep +:+ Join rest sep
  end.

(** [filepath.Ext] on a directory entry name (no path separator in it): the
    suffix that starts at the last dot, or the empty string without a dot. *)
Fixpoint Ext (name : string) : string :=
  match name with
  | EmptyString => EmptyString
  | String c r =>
      match Ext r with
      | EmptyString => if Ascii.eqb c "." then name else EmptyString
      | e => e
      end
  end.

(** ** Values, errors and outcomes *)

(** What an [interface{}] holds in this program. *)
#[warnings="-register-all"]
Inductive value : Type :=
  | VNil : value
  | VStr (s : string) : value
  | VArr (elems : list value) : value.

(** The type assertion [v.(string)]. *)
Definition asString (v : value) : option string :=
  match v with VStr s => Some s | _ => None end.

(** The [error] values the decoder hands to its caller. *)
Inductive error : Type :=
  | EOF : error
  | ErrUnexpectedEOF : error
  | ErrAtoi (s : string) : error
  | ErrInvalidPrefix (prefix : ascii) : error
  | ErrInvalidCommand (v : value) : error.

Inductive outcome (A : Type) : Type :=
  | Ok (a : A) : outcome A
  | Err (e : error) : outcome A
  | Panic (msg : string) : outcome A.
Arguments Ok {A} a.
Arguments Err {A} e.
Arguments Panic {A} msg.

(** ** Protocol decoder *)

Definition isPrefix (c : ascii) (p : string) : bool :=
  match p with String q EmptyString => Ascii.eqb c q | _ => false end.

(** [readRESP].  The Go function recurses once per nested value; [fuel]
    bounds the number of nested calls, and [None] means the bound was too
    small.  [readElems] is the [for i := 0; i < count; i++] loop of the array
    case, returning the slice it has filled. *)
Fixpoint readRESP_fuel (fuel : nat) (reader : string) {struct fuel}
  : option (outcome (value * string)) :=
  match fuel with
  | O => None
  | S f =>
      match reader with
      | EmptyString => Some (Err EOF)
      | String prefix r1 =>
          if isPrefix prefix "+" || isPrefix prefix "-" || isPrefix prefix ":" then
            match ReadString r1 with
            | None => Some (Err EOF)
            | Some (line, r2) => Some (Ok (VStr (TrimSpace line), r2))
            end
          else if isPrefix prefix "$" then
            match ReadString r1 with
            | None => Some (Err EOF)
            | Some (line, r2) =>
                match Atoi (TrimSpace line) with
                | None => Some (Err (ErrAtoi (TrimSpace line)))
                | Some size =>
                    if size =? -1 then Some (Ok (VNil, r2))
                    else
                      let n := wrap64 (size + 2) in
                      if n <? 0 then Some (Panic "makeslice: len out of range")
                      else
                        match ReadFull r2 n with
                        | None =>
                            Some (Err (match r2 with
                                       | EmptyString => EOF
                                       | _ => ErrUnexpectedEOF
                                       end))
                        | Some (buf, r3) =>
                            if size <? 0
                            then Some (Panic "slice bounds out of range")
                            else Some (Ok (VStr (takeBytes buf size), r3))
                        end
                end
            end
          else if isPrefix prefix "*" then
            match ReadString r1 with
            | None => Some (Err EOF)
            | Some (line, r2) =>
                match Atoi (TrimSpace line) with
                | None => Some (Err (ErrAtoi (TrimSpace line)))
                | Some count =>
                    if count <? 0 then Some (Panic "makeslice: len out of range")
                    else
                      match readElems f count 0 r2 with
                      | None => None
                      | Some (Ok (array, r3)) => Some (Ok (VArr array, r3))
                      | Some (Err e) => Some (Err e)
                      | Some (Panic m) => Some (Panic m)
                      end
                end
            end
          else Some (Err (ErrInvalidPrefix prefix))
      end
  end
with readElems (fuel : nat) (count i : Z) (reader : string) {struct fuel}
  : option (outcome (list value * string)) :=
  if i <? count then
    match fuel with
    | O => None
    | S f =>
        match readRESP_fuel f reader with
        | None => None
        | Some (Ok (elem, r1)) =>
            match readElems f count (i + 1) r1 with
            | None => None
            | Some (Ok (rest, r2)) => Some (Ok (elem :: rest, r2))
            | Some (Err e) => Some (Err e)
            | Some (Panic m) => Some (Panic m)
            end
        | Some (Err e) => Some (Err e)
        | Some (Panic m) => Some (Panic m)
        end
    end
  else Some (Ok ([], reader)).

(** Every call of [readRESP] consumes at least its prefix byte, so one more
    unit of fuel than the stream has bytes is always enough
    ([readRESP_fuel_enough] below); the last branch is never taken. *)
Definition readRESP (reader : string) : outcome (value * string) :=
  match readRESP_fuel (S (String.length reader)) reader with
  | Some o => o
  | None => Err EOF
  end.

(** [readCommand]: the command name, its arguments and the rest of the
    stream. *)
Definition readCommand (reader : string)
  : outcome (string * list value * string) :=
  match reader with
  | EmptyString => Err EOF
  | String prefix _ =>
      if negb (isPrefix prefix "*") then
        match ReadString reader with
        | None => Err EOF
        | Some (line, rest) => Ok (ToUpper (TrimSpace line), [], rest)
        end
      else
        match readRESP reader with
        | Err e => Err e
        | Panic m => Panic m
        | Ok (resp, rest) =>
            match resp with
            | VArr [] => Ok (EmptyString, [], rest)
            | VArr (VStr cmd :: args) => Ok (ToUpper cmd, args, rest)
            | VArr (v :: _) => Err (ErrInvalidCommand v)
            | _ => Ok (EmptyString, [], rest)
            end
        end
  end.

(** ** Request frames

    The array-of-bulk-strings frame of the wire protocol, written after its
    description: [*<n>\r\n] followed by [$<len>\r\n<bytes>\r\n] per element.
    The program itself only decodes such frames; [bulkString] is also the
    text [addReplyBulk] writes for one string. *)
Definition bulkString (s : string) : string :=
  "$" +:+ formatInt (len s) +:+ CRLF +:+ s +:+ CRLF.

Fixpoint concatStrings (l : list string) : string :=
  match l with
  | [] => EmptyString
  | s :: rest => s +:+ concatStrings rest
  end.

Definition encodeCommand (args : list string) : string :=
  "*" +:+ formatInt (Z.of_nat (length args)) +:+ CRLF
      +:+ concatStrings (map bulkString args).

(** ** Reply encoder *)

Definition addReplyErrorArity : string :=
  "-ERR wrong number of arguments" +:+ CRLF.

(** [addReplyBulk].  [addReplyBulkValue v] is [addReplyBulk] applied to the
    slice that [v] holds; the inner [loop] is the [range] loop with the
    buffer [reply] built so far.  A nested slice returns the encoding of that
    slice alone, as the [return addReplyBulk(value)] of the source does. *)
Fixpoint addReplyBulkValue (v : value) : string :=
  match v with
  | VArr args =>
      match args with
      | [] => "+" +:+ CRLF
      | _ =>
          (fix loop (l : list value) (reply : string) {struct l} : string :=
             match l with
             | [] => reply
             | arg :: rest =>
                 match arg with
                 | VStr s =>
                     loop rest (reply +:+ ("$" +:+ formatInt (len s) +:+ CRLF)
                                      +:+ (s +:+ CRLF))
                 | VArr _ => addReplyBulkValue arg
                 | VNil => "-ERR Unknown argument type <nil>" +:+ CRLF
                 end
             end) args EmptyString
      end
  | _ => EmptyString
  end.

Definition addReplyBulk (args : list value) : string :=
  addReplyBulkValue (VArr args).

(** ** Store *)

(** [Expirations] holds instants in nanoseconds. *)
Record RedisServer : Type := mkRedisServer {
  Storage : gmap string string;
  Expirations : gmap string Z
}.

(** The server [main] starts with. *)
Definition newRedisServer : RedisServer :=
  {| Storage := ∅; Expirations := ∅ |}.

(** [time.Millisecond], a [time.Duration] (an [int64] of nanoseconds). *)
Definition Millisecond : Z := 1000000.

(** [time.Duration(n) * time.Millisecond]: a 64-bit product. *)
Definition durationOfMillis (n : Z) : Z := wrap64 (n * Millisecond).

(** [t.Add(d)] and [t.After(u)] *)
Definition timeAdd (t d : Z) : Z := t + d.
Definition timeAfter (t u : Z) : bool := u <? t.

(** ** Registry records *)

Inductive handlerFn : Type :=
  | fnPing | fnEcho | fnSet | fnGet.

(** [Function] is [None] for the [nil] function value. *)
Record RedisCommand : Type := mkRedisCommand {
  Name : string;
  Function : option handlerFn;
  Group : string;
  MinArgs : Z;
  CmdFlags : Z;
  Category : string
}.

(** The zero value a map lookup yields for a missing key. *)
Definition zeroRedisCommand : RedisCommand :=
  {| Name := EmptyString; Function := None; Group := EmptyString; MinArgs := 0;
     CmdFlags := 0; Category := EmptyString |}.

Definition addReply (command : RedisCommand) : string :=
  if String.eqb (Name command) "PING" then "+PONG" +:+ CRLF
  else "-ERR Unknown command " +:+ Name command +:+ CRLF.

(** ** Command handlers

    Each handler takes the command table (the global [redisCommandTable]),
    the server, the command name, the arguments and the clock reading, and
    returns the server after the call with the reply.  [nth i args VNil] is
    [args[i]]; every index used is below [len(args)] by the guard before
    it. *)
Section Handlers.
Variable redisCommandTable : gmap string RedisCommand.

Definition handlePingCommand (server : RedisServer) (cmd : string)
    (args : list value) (now : Z) : RedisServer * string :=
  if (1 <? length args)%nat then (server, addReplyErrorArity)
  else if (length args =? 0)%nat
       then (server, addReply (default zeroRedisCommand (redisCommandTable !! cmd)))
       else (server, addReplyBulk args).

Definition handleEchoCommand (server : RedisServer) (cmd : string)
    (args : list value) (now : Z) : RedisServer * string :=
  if negb (length args =? 1)%nat then (server, addReplyErrorArity)
  else match asString (nth 0 args VNil) with
       | None => (server, "-ERR Invalid argument type" +:+ CRLF)
       | Some arg => (server, addReplyBulk [VStr arg])
       end.

Definition handleSetCommand (server : RedisServer) (cmd : string)
    (args : list value) (now : Z) : RedisServer * string :=
  if negb (length args =? 2)%nat && negb (length args =? 4)%nat
  then (server, addReplyErrorArity)
  else
    match asString (nth 0 args VNil) with
    | None => (server, "-ERR Invalid key type" +:+ CRLF)
    | Some key =>
        match asString (nth 1 args VNil) with
        | None => (server, "-ERR Invalid value type" +:+ CRLF)
        | Some val =>
            if (length args =? 4)%nat then
              match asString (nth 2 args VNil) with
              | None => (server, "-ERR Invalid expiry option" +:+ CRLF)
              | Some expiryOption =>
                  if negb (String.eqb (ToUpper expiryOption) "PX")
                  then (server, "-ERR Invalid expiry option" +:+ CRLF)
                  else
                    match asString (nth 3 args VNil) with
                    | None => (server, "-ERR Invalid expiry type" +:+ CRLF)
                    | Some expiry =>
                        match Atoi expiry with
                        | None => (server, "-ERR Invalid expiry value" +:+ CRLF)
                        | Some expiryInt =>
                            ({| Storage := <[key := val]> (Storage server);
                                Expirations :=
                                  <[key := timeAdd now (durationOfMillis expiryInt)]>
                                    (Expirations server) |},
                             "+OK" +:+ CRLF)
                        end
                    end
              end
            else
              ({| Storage := <[key := val]> (Storage server);
                  Expirations := delete key (Expirations server) |},
               "+OK" +:+ CRLF)
        end
    end.

Definition handleGetCommand (server : RedisServer) (cmd : string)
    (args : list value) (now : Z) : RedisServer * string :=
  if negb (length args =? 1)%nat then (server, addReplyErrorArity)
  else
    match asString (nth 0 args VNil) with
    | None => (server, "-ERR Invalid key type" +:+ CRLF)
    | Some key =>
        (* exists && time.Now().After(expiration) *)
        if match Expirations server !! key with
           | Some expiration => timeAfter now expiration
           | None => false
           end
        then
          ({| Storage := delete key (Storage server);
              Expirations := delete key (Expirations server) |},
           "$-1" +:+ CRLF)
        else
          match Storage server !! key with
          | None => (server, "$-1" +:+ CRLF)
          | Some val => (server, addReplyBulk [VStr val])
          end
    end.

(** Calling a non-nil function value. *)
Definition callFunction (fn : handlerFn) (server : RedisServer)
    (cmd : string) (args : list value) (now : Z) : RedisServer * string :=
  match fn with
  | fnPing => handlePingCommand server cmd args now
  | fnEcho => handleEchoCommand server cmd args now
  | fnSet => handleSetCommand server cmd args now
  | fnGet => handleGetCommand server cmd args now
  end.

(** The body of the loop of [handleCommands] for one [CommandRequest]:
    the server afterwards and the response sent on the channel.  Calling
    the [nil] function value panics. *)
Definition handleCommands (server : RedisServer) (cmd : string)
    (args : list value) (now : Z) : outcome (RedisServer * string) :=
  match redisCommandTable !! cmd with
  | Some command =>
      match Function command with
      | Some fn => Ok (callFunction fn server cmd args now)
      | None => Panic "invalid memory address or nil pointer dereference"
      end
  | None => Ok (server, "-ERR Unknown command: " +:+ cmd +:+ CRLF)
  end.
End Handlers.

(** ** Descriptor loader *)

Definition CMD_FAST : Z := 1.
Definition CMD_SENTINEL : Z := 2.

Record Argument : Type := mkArgument {
  arg_Name : string;
  arg_Type : string;
  arg_Optional : bool
}.

Record CommandInfo : Type := mkCommandInfo {
  Summary : string;
  Complexity : string;
  info_Group : string;
  Since : string;
  Arity : Z;
  FunctionName : string;
  CommandFlags : list string;
  AclCategories : list string;
  CommandTips : list string;
  Arguments : list Argument
}.

Definition getFunctionByName (name : string) : option handlerFn :=
  if String.eqb name "pingCommand" then Some fnPing
  else if String.eqb name "echoCommand" then Some fnEcho
  else if String.eqb name "handleSetCommand" then Some fnSet
  else if String.eqb name "handleGetCommand" then Some fnGet
  else None.

(** The loop over [info.CommandFlags]. *)
Fixpoint packFlags (flags : list string) (cmdFlags : Z) : Z :=
  match flags with
  | [] => cmdFlags
  | flag :: rest =>
      packFlags rest
        (if String.eqb flag "FAST" then Z.lor cmdFlags CMD_FAST
         else if String.eqb flag "SENTINEL" then Z.lor cmdFlags CMD_SENTINEL
         else cmdFlags)
  end.

Definition makeCommand (cmdName : string) (info : CommandInfo) : RedisCommand :=
  {| Name := cmdName;
     Function := getFunctionByName (FunctionName info);
     Group := info_Group info;
     MinArgs := Arity info;
     CmdFlags := packFlags (CommandFlags info) 0;
     Category := Join (AclCategories info) "," |}.

(** What [ioutil.ReadFile] and [json.Unmarshal] make of one directory entry:
    a read error, a parse error, or the decoded map, given as its entries in
    the order the [range] loop visits them. *)
Inductive fileContent : Type :=
  | ReadError : fileContent
  | ParseError : fileContent
  | Parsed (commands : list (string * CommandInfo)) : fileContent.

(** The loop [for cmdName, info := range commands]. *)
Fixpoint addCommands (commands : list (string * CommandInfo))
    (commandTable : gmap string RedisCommand) : gmap string RedisCommand :=
  match commands with
  | [] => commandTable
  | (cmdName, info) :: rest =>
      addCommands rest (<[cmdName := makeCommand cmdName info]> commandTable)
  end.

(** The loop [for _, file := range files]. *)
Fixpoint loadFiles (files : list (string * fileContent))
    (commandTable : gmap string RedisCommand) : gmap string RedisCommand :=
  match files with
  | [] => commandTable
  | (name, content) :: rest =>
      if String.eqb (Ext name) ".json" then
        match content with
        | Parsed commands => loadFiles rest (addCommands commands commandTable)
        | _ => loadFiles rest commandTable
        end
      else loadFiles rest commandTable
  end.

(** [loadCommandsFromJSON] once [ioutil.ReadDir] has listed the directory
    (when it fails the process exits before a table exists). *)
Definition loadCommandsFromJSON (files : list (string * fileContent))
  : gmap string RedisCommand :=
  loadFiles files ∅.

(** ** Store invariant and reachable servers *)





(** A reply that is an error line: it starts with [-]. *)
Definition isErrorReply (reply : string) : bool :=
  match reply with
  | String c _ => Ascii.eqb c "-"
  | EmptyString => false
  end.

(** ** The reply encoding as the specification words it

    The concatenation, in order, of each element's bulk encoding, nested
    lists encoded in place. *)
Fixpoint bulkEncodingSpec (v : value) : string :=
  match v with
  | VStr s => bulkString s
  | VNil => "$-1" +:+ CRLF
  | VArr elems =>
      (fix all (l : list value) : string :=
         match l with
         | [] => EmptyString
         | x :: rest => bulkEncodingSpec x +:+ all rest
         end) elems
  end.

Definition bulkListSpec (args : list value) : string :=
  bulkEncodingSpec (VArr args).


(** The [range] loop of [addReplyBulk] on its own, with the buffer built so
    far: the loop inside [addReplyBulkValue]. *)
Fixpoint bulkLoop (l : list value) (reply : string) : string :=
  match l with
  | [] => reply
  | arg :: rest =>
      match arg with
      | VStr s =>
          bulkLoop rest (reply +:+ ("$" +:+ formatInt (len s) +:+ CRLF)
                               +:+ (s +:+ CRLF))
      | VArr _ => addReplyBulkValue arg
      | VNil => "-ERR Unknown argument type <nil>" +:+ CRLF
      end
  end.

(** Every record of a table carries the key it is stored under as its
    name. *)
Definition namedByKey (table : gmap string RedisCommand) : Prop :=
  forall key c, table !! key = Some c -> Name c = key.

(** Sample descriptors. *)
Definition sampleInfo (function : string) : CommandInfo :=
  {| Summary := EmptyString; Complexity := "O(1)"; info_Group := "connection";
     Since := "1.0.0"; Arity := -1; FunctionName := function;
     CommandFlags := ["FAST"; "SENTINEL"]; AclCategories := ["CONNECTION"];
     CommandTips := []; Arguments := [] |}.

Definition sampleFiles : list (string * fileContent) :=
  [("ping.json", Parsed [("PING", sampleInfo "pingCommand")]);
   ("set.json", Parsed [("SET", sampleInfo "handleSetCommand")]);
   ("get.json", Parsed [("GET", sampleInfo "handleGetCommand")])].

(** Case analysis on every test of a handler body. *)
Ltac break_handler :=
  repeat match goal with
         | |- context [if ?b then _ else _] => destruct b eqn:?
         | |- context [match ?x with _ => _ end] => destruct x eqn:?
         end.


(** ** Values on the wire

    The encoding [readRESP] decodes, for the values it can return from
    length-prefixed input: [$-1\r\n] for null, a bulk string for a string,
    [*<n>\r\n] followed by the encodings of the [n] elements for an array. *)
Fixpoint encodeValue (v : value) : string :=
  match v with
  | VNil => "$-1" +:+ CRLF
  | VStr s => bulkString s
  | VArr elems =>
      "*" +:+ formatInt (Z.of_nat (length elems)) +:+ CRLF
          +:+ (fix encodeAll (l : list value) : string :=
                 match l with
                 | [] => EmptyString
                 | x :: rest => encodeValue x +:+ encodeAll rest
                 end) elems
  end.



(** [p] is the stream cut somewhere before the end of [s]. *)
Definition properPrefix (p s : string) : Prop :=
  exists t, t <> EmptyString /\ s = p +:+ t.

(** ** Connection

    How [handleConnection] ends: the read loop returns on a read error and
    the connection is closed, or a panic takes the process down. *)
Inductive connEnd : Type :=
  | Closed (e : error)
  | Crashed (msg : string).

(** The [for] loop of [handleConnection] on the bytes [reader] still to come:
    the server when the loop ends, the bytes written to the connection, and
    how it ended.  The request is handed to [handleCommands] over the channel
    and the loop waits for the response, so the two goroutines of a
    connection run one request at a time; [clock k] is what [time.Now()]
    reads while the [k]-th dispatched request of the connection is handled.
    [fuel] bounds the number of iterations. *)
Fixpoint connectionLoop_fuel (fuel : nat)
    (redisCommandTable : gmap string RedisCommand) (server : RedisServer)
    (reader : string) (clock : nat -> Z) (k : nat) {struct fuel}
  : option (RedisServer * string * connEnd) :=
  match fuel with
  | O => None
  | S f =>
      match readCommand reader with
      | Err e => Some (server, EmptyString, Closed e)
      | Panic m => Some (server, EmptyString, Crashed m)
      | Ok (cmd, args, rest) =>
          if String.eqb cmd EmptyString
          then connectionLoop_fuel f redisCommandTable server rest clock k
          else
            match handleCommands redisCommandTable server cmd args (clock k) with
            | Ok (server', response) =>
                match connectionLoop_fuel f redisCommandTable server' rest
                        clock (S k) with
                | Some (final, written, ending) =>
                    Some (final, response +:+ written, ending)
                | None => None
                end
            | Panic m => Some (server, EmptyString, Crashed m)
            | Err e => Some (server, EmptyString, Closed e)
            end
      end
  end.

(** Every iteration that goes on consumes at least one byte, so one more unit
    of fuel than the stream has bytes is enough; the last branch is never
    taken. *)
Definition connectionLoop (redisCommandTable : gmap string RedisCommand)
    (server : RedisServer) (reader : string) (clock : nat -> Z) (k : nat)
  : RedisServer * string * connEnd :=
  match connectionLoop_fuel (S (String.length reader)) redisCommandTable
          server reader clock k with
  | Some r => r
  | None => (server, EmptyString, Closed EOF)
  end.

(** [handleConnection] on a fresh connection. *)
Definition handleConnection (redisCommandTable : gmap string RedisCommand)
    (server : RedisServer) (reader : string) (clock : nat -> Z)
  : RedisServer * string * connEnd :=
  connectionLoop redisCommandTable server reader clock 0.



(** A reply that ends with the line terminator. *)
Definition endsWithCRLF (reply : string) : Prop :=
  exists body, reply = body +:+ CRLF.

(** Lines made of white space other than the line feed. *)
Fixpoint allBlank (s : string) : bool :=
  match s with
  | EmptyString => true
  | String c r => isSpace c && negb (Ascii.eqb c LF) && allBlank r
  end.

(** * Properties *)

(** ** Strings *)

Lemma append_String (c : ascii) (a b : string) :
  String c a +:+ b = String c (a +:+ b).
Proof. reflexivity. Qed.

Lemma append_empty_l (a : string) : EmptyString +:+ a = a.
Proof. reflexivity. Qed.

Lemma append_assoc (a b c : string) : (a +:+ b) +:+ c = a +:+ (b +:+ c).
Proof.
  induction a as [|x a IH]; [reflexivity|].
  rewrite !append_String. now rewrite IH.
Qed.


(** ** Decimal numbers: [%d] and [strconv.Atoi] *)










(** ** Reading lines and blocks *)







Lemma wrap64_small (z : Z) : minInt <= z <= maxInt -> wrap64 z = z.
Proof.
  unfold wrap64, minInt, maxInt. intros H.
  rewrite Z.mod_small by lia. lia.
Qed.

(** ** The decoder on well-formed frames *)


Lemma readRESP_fuel_bulk_eq (f : nat) (r1 : string) :
  readRESP_fuel (S f) (String "$" r1) =
  match ReadString r1 with
  | None => Some (Err EOF)
  | Some (line, r2) =>
      match Atoi (TrimSpace line) with
      | None => Some (Err (ErrAtoi (TrimSpace line)))
      | Some size =>
          if size =? -1 then Some (Ok (VNil, r2))
          else
            let n := wrap64 (size + 2) in
            if n <? 0 then Some (Panic "makeslice: len out of range")
            else
              match ReadFull r2 n with
              | None =>
                  Some (Err (match r2 with
                             | EmptyString => EOF
                             | _ => ErrUnexpectedEOF
                             end))
              | Some (buf, r3) =>
                  if size <? 0
                  then Some (Panic "slice bounds out of range")
                  else Some (Ok (VStr (takeBytes buf size), r3))
              end
      end
  end.
Proof. reflexivity. Qed.

Lemma readRESP_fuel_array_eq (f : nat) (r1 : string) :
  readRESP_fuel (S f) (String "*" r1) =
  match ReadString r1 with
  | None => Some (Err EOF)
  | Some (line, r2) =>
      match Atoi (TrimSpace line) with
      | None => Some (Err (ErrAtoi (TrimSpace line)))
      | Some count =>
          if count <? 0 then Some (Panic "makeslice: len out of range")
          else
            match readElems f count 0 r2 with
            | None => None
            | Some (Ok (array, r3)) => Some (Ok (VArr array, r3))
            | Some (Err e) => Some (Err e)
            | Some (Panic m) => Some (Panic m)
            end
      end
  end.
Proof. reflexivity. Qed.

Lemma readElems_eq (fuel : nat) (count i : Z) (reader : string) :
  readElems fuel count i reader =
  if i <? count then
    match fuel with
    | O => None
    | S f =>
        match readRESP_fuel f reader with
        | None => None
        | Some (Ok (elem, r1)) =>
            match readElems f count (i + 1) r1 with
            | None => None
            | Some (Ok (rest, r2)) => Some (Ok (elem :: rest, r2))
            | Some (Err e) => Some (Err e)
            | Some (Panic m) => Some (Panic m)
            end
        | Some (Err e) => Some (Err e)
        | Some (Panic m) => Some (Panic m)
        end
    end
  else Some (Ok ([], reader)).
Proof. destruct fuel; reflexivity. Qed.







(** ** The decoder always returns *)

Lemma ReadString_shorter (r : string) : forall line rest,
  ReadString r = Some (line, rest) ->
  (String.length rest < String.length r)%nat.
Proof.
  induction r as [|c r IH]; intros line rest H; simpl in H; [discriminate|].
  destruct (Ascii.eqb c LF).
  - injection H as _ <-. simpl. lia.
  - destruct (ReadString r) as [[l r']|] eqn:E; [|discriminate].
    injection H as _ <-. specialize (IH _ _ eq_refl). simpl. lia.
Qed.

Lemma ReadFull_shorter (r : string) : forall n buf rest,
  ReadFull r n = Some (buf, rest) ->
  (String.length rest <= String.length r)%nat.
Proof.
  induction r as [|c r IH]; intros n buf rest H; simpl in H.
  - destruct (n <=? 0); [|discriminate]. injection H as _ <-. simpl. lia.
  - destruct (n <=? 0).
    + injection H as _ <-. simpl. lia.
    + destruct (ReadFull r (n - 1)) as [[b r']|] eqn:E; [|discriminate].
      injection H as _ <-. specialize (IH _ _ _ E). simpl. lia.
Qed.

Lemma readRESP_fuel_eq (f : nat) (prefix : ascii) (r1 : string) :
  readRESP_fuel (S f) (String prefix r1) =
  if isPrefix prefix "+" || isPrefix prefix "-" || isPrefix prefix ":" then
    match ReadString r1 with
    | None => Some (Err EOF)
    | Some (line, r2) => Some (Ok (VStr (TrimSpace line), r2))
    end
  else if isPrefix prefix "$" then readRESP_fuel (S f) (String "$" r1)
  else if isPrefix prefix "*" then readRESP_fuel (S f) (String "*" r1)
  else Some (Err (ErrInvalidPrefix prefix)).
Proof.
  destruct (isPrefix prefix "+" || isPrefix prefix "-" || isPrefix prefix ":")
    eqn:E1; [cbn [readRESP_fuel]; now rewrite E1|].
  destruct (isPrefix prefix "$") eqn:E2;
    [cbn [readRESP_fuel]; rewrite E1, E2; reflexivity|].
  destruct (isPrefix prefix "*") eqn:E3;
    cbn [readRESP_fuel]; rewrite E1, E2, E3; reflexivity.
Qed.

(** Each successful call consumes bytes: a value at least one. *)
Lemma readRESP_fuel_consumes (fuel : nat) :
  (forall r v r', readRESP_fuel fuel r = Some (Ok (v, r')) ->
                  (String.length r' < String.length r)%nat) /\
  (forall r c i l r', readElems fuel c i r = Some (Ok (l, r')) ->
                      (String.length r' <= String.length r)%nat).
Proof.
  induction fuel as [|f [IH1 IH2]]; split.
  - intros r v r' H. discriminate H.
  - intros r c i l r' H. rewrite readElems_eq in H.
    destruct (i <? c); [discriminate|]. injection H as _ <-. lia.
  - intros r v r' H. destruct r as [|p r1]; [discriminate H|].
    rewrite readRESP_fuel_eq in H.
    destruct (isPrefix p "+" || isPrefix p "-" || isPrefix p ":").
    { destruct (ReadString r1) as [[line r2]|] eqn:E; [|discriminate].
      injection H as _ <-. apply ReadString_shorter in E. simpl. lia. }
    destruct (isPrefix p "$").
    { rewrite readRESP_fuel_bulk_eq in H.
      destruct (ReadString r1) as [[line r2]|] eqn:E; [|discriminate].
      apply ReadString_shorter in E.
      destruct (Atoi (TrimSpace line)) as [size|]; [|discriminate].
      destruct (size =? -1); [injection H as _ <-; simpl; lia|].
      cbv zeta in H. destruct (wrap64 (size + 2) <? 0); [discriminate|].
      destruct (ReadFull r2 (wrap64 (size + 2))) as [[buf r3]|] eqn:E2;
        [|discriminate].
      apply ReadFull_shorter in E2.
      destruct (size <? 0); [discriminate|].
      injection H as _ <-. simpl. lia. }
    destruct (isPrefix p "*"); [|discriminate].
    rewrite readRESP_fuel_array_eq in H.
    destruct (ReadString r1) as [[line r2]|] eqn:E; [|discriminate].
    apply ReadString_shorter in E.
    destruct (Atoi (TrimSpace line)) as [count|]; [|discriminate].
    destruct (count <? 0); [discriminate|].
    destruct (readElems f count 0 r2) as [[[arr r3]| |]|] eqn:E2;
      try discriminate.
    injection H as _ <-. apply IH2 in E2. simpl. lia.
  - intros r c i l r' H. rewrite readElems_eq in H.
    destruct (i <? c); [|injection H as _ <-; lia].
    destruct (readRESP_fuel f r) as [[[elem r1]| |]|] eqn:E1; try discriminate.
    destruct (readElems f c (i + 1) r1) as [[[rest r2]| |]|] eqn:E2;
      try discriminate.
    injection H as _ <-. apply IH1 in E1. apply IH2 in E2. lia.
Qed.

(** With more fuel than the stream has bytes the bound is never hit. *)
Lemma readRESP_fuel_returns (fuel : nat) :
  (forall r, (String.length r < fuel)%nat -> readRESP_fuel fuel r <> None) /\
  (forall r c i, (String.length r + 1 < fuel)%nat ->
                 readElems fuel c i r <> None).
Proof.
  induction fuel as [|f [IH1 IH2]]; split.
  - intros r H. lia.
  - intros r c i H. lia.
  - intros r Hf. destruct r as [|p r1]; [discriminate|].
    rewrite readRESP_fuel_eq.
    destruct (isPrefix p "+" || isPrefix p "-" || isPrefix p ":").
    { destruct (ReadString r1) as [[line r2]|]; discriminate. }
    destruct (isPrefix p "$").
    { rewrite readRESP_fuel_bulk_eq.
      destruct (ReadString r1) as [[line r2]|]; [|discriminate].
      destruct (Atoi (TrimSpace line)) as [size|]; [|discriminate].
      destruct (size =? -1); [discriminate|]. cbv zeta.
      destruct (wrap64 (size + 2) <? 0); [discriminate|].
      destruct (ReadFull r2 (wrap64 (size + 2))) as [[buf r3]|];
        [|discriminate].
      destruct (size <? 0); discriminate. }
    destruct (isPrefix p "*"); [|discriminate].
    rewrite readRESP_fuel_array_eq.
    destruct (ReadString r1) as [[line r2]|] eqn:E; [|discriminate].
    apply ReadString_shorter in E.
    destruct (Atoi (TrimSpace line)) as [count|]; [|discriminate].
    destruct (count <? 0); [discriminate|].
    simpl in Hf.
    destruct (readElems f count 0 r2) as [[[arr r3]| |]|] eqn:E2;
      try discriminate.
    exfalso. revert E2. apply IH2. lia.
  - intros r c i Hf. rewrite readElems_eq.
    destruct (i <? c); [|discriminate].
    destruct (readRESP_fuel f r) as [[[elem r1]| |]|] eqn:E1;
      try discriminate.
    + destruct (readElems f c (i + 1) r1) as [[[rest r2]| |]|] eqn:E2;
        try discriminate.
      exfalso. revert E2. apply IH2.
      apply (proj1 (readRESP_fuel_consumes f)) in E1. lia.
    + exfalso. revert E1. apply IH1. lia.
Qed.

(** [readRESP] is total: the fuel it starts with is enough for any stream. *)
Lemma readRESP_fuel_enough (reader : string) :
  readRESP_fuel (S (String.length reader)) reader = Some (readRESP reader).
Proof.
  unfold readRESP.
  destruct (readRESP_fuel (S (String.length reader)) reader) eqn:E;
    [reflexivity|].
  exfalso. revert E. apply readRESP_fuel_returns. lia.
Qed.

(** ** Round trip of request frames *)



(** ** Faults of the decoder *)

(** A bulk length below [-1] makes the decoder panic, whatever follows. *)
Lemma readRESP_fuel_negative_size (f : nat) (r1 line r2 : string) (size : Z) :
  ReadString r1 = Some (line, r2) ->
  Atoi (TrimSpace line) = Some size ->
  minInt <= size < -1 ->
  exists msg, readRESP_fuel (S f) (String "$" r1) = Some (Panic msg).
Proof.
  intros HR HA [Hlo Hhi]. rewrite readRESP_fuel_bulk_eq, HR, HA.
  replace (size =? -1) with false by (symmetry; apply Z.eqb_neq; lia).
  cbv zeta. rewrite wrap64_small by (unfold minInt, maxInt in *; lia).
  destruct (size + 2 <? 0) eqn:E; [eauto|].
  apply Z.ltb_ge in E. assert (size = -2) as -> by lia.
  change (-2 + 2) with 0. replace (ReadFull r2 0) with (Some (EmptyString, r2))
    by (destruct r2; reflexivity).
  eauto.
Qed.

(** A negative array count makes the decoder panic. *)
Lemma readRESP_fuel_negative_count (f : nat) (r1 line r2 : string) (count : Z) :
  ReadString r1 = Some (line, r2) ->
  Atoi (TrimSpace line) = Some count ->
  count < 0 ->
  exists msg, readRESP_fuel (S f) (String "*" r1) = Some (Panic msg).
Proof.
  intros HR HA Hc. rewrite readRESP_fuel_array_eq, HR, HA.
  replace (count <? 0) with true by (symmetry; apply Z.ltb_lt; lia).
  eauto.
Qed.

(** C6. On a bulk-string length below [-1] and on a negative array count the
    decoder does not return an error: [make] is called with a negative
    length, or the buffer is sliced below zero, and the call panics.  The
    same happens through [readCommand], the caller of the read loop. *)
Theorem readRESP_negative_length_panics :
  readRESP ("$-5" +:+ CRLF) = Panic "makeslice: len out of range" /\
  readRESP ("$-2" +:+ CRLF) = Panic "slice bounds out of range" /\
  readRESP ("*-1" +:+ CRLF) = Panic "makeslice: len out of range" /\
  readCommand ("*-1" +:+ CRLF) = Panic "makeslice: len out of range" /\
  readCommand ("*1" +:+ CRLF +:+ "$-5" +:+ CRLF)
  = Panic "makeslice: len out of range".
Proof. repeat split; vm_compute; reflexivity. Qed.

(** ** Reply encoder *)

Lemma append_empty_r (a : string) : a +:+ EmptyString = a.
Proof.
  induction a as [|c a IH]; [reflexivity|].
  rewrite append_String. now rewrite IH.
Qed.

Lemma addReplyBulk_eq (args : list value) :
  addReplyBulk args =
  match args with
  | [] => "+" +:+ CRLF
  | _ => bulkLoop args EmptyString
  end.
Proof. destruct args; reflexivity. Qed.

Lemma bulkLoop_strings (l : list string) : forall reply,
  bulkLoop (map VStr l) reply = reply +:+ concatStrings (map bulkString l).
Proof.
  induction l as [|s l IH]; intros reply; simpl.
  - now rewrite append_empty_r.
  - rewrite IH. unfold bulkString. now rewrite !append_assoc.
Qed.

Lemma bulkLoop_strings_nil (l : list string) (rest : list value) :
  forall reply,
    bulkLoop (map VStr l ++ VNil :: rest)%list reply
    = "-ERR Unknown argument type <nil>" +:+ CRLF.
Proof. induction l as [|s l IH]; intros reply; simpl; [reflexivity | apply IH]. Qed.

Lemma bulkListSpec_strings (l : list string) :
  bulkListSpec (map VStr l) = concatStrings (map bulkString l).
Proof.
  unfold bulkListSpec. induction l as [|s l IH]; [reflexivity|].
  simpl in *. now rewrite IH.
Qed.

(** C8, as the code has it.  For a non-empty list of strings the output of
    [addReplyBulk] is the concatenation, in order, of each element's bulk
    encoding, none dropped; the empty list is encoded as [+\r\n]; strings
    followed by a null element give the unsupported-type error reply. *)
Theorem addReplyBulk_strings :
  (forall (s : string) (l : list string),
      addReplyBulk (map VStr (s :: l)) = concatStrings (map bulkString (s :: l)) /\
      addReplyBulk (map VStr (s :: l)) = bulkListSpec (map VStr (s :: l))) /\
  addReplyBulk [] = "+" +:+ CRLF /\
  (forall (l : list string) (rest : list value),
      addReplyBulk (map VStr l ++ VNil :: rest)%list
      = "-ERR Unknown argument type <nil>" +:+ CRLF).
Proof.
  split; [|split].
  - intros s l. rewrite bulkListSpec_strings, addReplyBulk_eq.
    change (map VStr (s :: l)) with (VStr s :: map VStr l).
    cbv iota. change (VStr s :: map VStr l) with (map VStr (s :: l)).
    rewrite bulkLoop_strings. now rewrite append_empty_l.
  - reflexivity.
  - intros l rest. rewrite addReplyBulk_eq.
    destruct (map VStr l ++ VNil :: rest)%list eqn:E.
    + destruct l; discriminate.
    + rewrite <- E. apply bulkLoop_strings_nil.
Qed.

(** C8 as stated fails.  The empty list is not encoded as the empty
    concatenation, and a nested list is not encoded in place: its encoding
    replaces the whole reply, so the elements before and after it are
    dropped. *)
Lemma addReplyBulk_not_concatenation :
  addReplyBulk [] = "+" +:+ CRLF /\
  bulkListSpec [] = EmptyString /\
  addReplyBulk [VStr "a"; VArr [VStr "b"]; VStr "c"] = bulkString "b" /\
  bulkListSpec [VStr "a"; VArr [VStr "b"]; VStr "c"]
  = bulkString "a" +:+ bulkString "b" +:+ bulkString "c" /\
  addReplyBulk [] <> bulkListSpec [] /\
  addReplyBulk [VStr "a"; VArr [VStr "b"]; VStr "c"]
  <> bulkListSpec [VStr "a"; VArr [VStr "b"]; VStr "c"].
Proof. repeat split; vm_compute; congruence. Qed.

(** ** Registry *)

Lemma Name_makeCommand (cmdName : string) (info : CommandInfo) :
  Name (makeCommand cmdName info) = cmdName.
Proof. reflexivity. Qed.

Lemma namedByKey_empty : namedByKey ∅.
Proof. intros key c H. rewrite lookup_empty in H. discriminate. Qed.

Lemma addCommands_namedByKey (commands : list (string * CommandInfo)) :
  forall table, namedByKey table -> namedByKey (addCommands commands table).
Proof.
  induction commands as [|[cmdName info] rest IH]; intros table Ht;
    [exact Ht|].
  simpl. apply IH. intros key c H.
  destruct (decide (cmdName = key)) as [->|Hne].
  - rewrite lookup_insert_eq in H. injection H as <-. reflexivity.
  - rewrite lookup_insert_ne in H by assumption. now apply Ht.
Qed.

Lemma loadFiles_namedByKey (files : list (string * fileContent)) :
  forall table, namedByKey table -> namedByKey (loadFiles files table).
Proof.
  induction files as [|[name content] rest IH]; intros table Ht; [exact Ht|].
  simpl. destruct (String.eqb (Ext name) ".json"); [|now apply IH].
  destruct content; apply IH; try assumption.
  now apply addCommands_namedByKey.
Qed.

(** Every record of the loaded table is named by its key. *)
Lemma loadCommandsFromJSON_namedByKey (files : list (string * fileContent)) :
  namedByKey (loadCommandsFromJSON files).
Proof. apply loadFiles_namedByKey, namedByKey_empty. Qed.

Lemma addCommands_keeps (commands : list (string * CommandInfo)) :
  forall table key, is_Some (table !! key) ->
                    is_Some (addCommands commands table !! key).
Proof.
  induction commands as [|[cmdName info] rest IH]; intros table key H;
    [exact H|].
  simpl. apply IH.
  destruct (decide (cmdName = key)) as [->|Hne].
  - rewrite lookup_insert_eq. eauto.
  - now rewrite lookup_insert_ne.
Qed.

Lemma addCommands_adds (commands : list (string * CommandInfo)) :
  forall table name info,
    In (name, info) commands ->
    is_Some (addCommands commands table !! name).
Proof.
  induction commands as [|[cmdName i] rest IH]; intros table name info H;
    [destruct H|].
  simpl. destruct H as [H|H].
  - injection H as -> ->. apply addCommands_keeps.
    rewrite lookup_insert_eq. eauto.
  - eapply IH, H.
Qed.

Lemma loadFiles_keeps (files : list (string * fileContent)) :
  forall table key, is_Some (table !! key) ->
                    is_Some (loadFiles files table !! key).
Proof.
  induction files as [|[name content] rest IH]; intros table key H; [exact H|].
  simpl. destruct (String.eqb (Ext name) ".json"); [|now apply IH].
  destruct content; apply IH; try assumption.
  now apply addCommands_keeps.
Qed.

Lemma loadFiles_adds (files : list (string * fileContent)) :
  forall table file commands name info,
    In (file, Parsed commands) files ->
    Ext file = ".json" ->
    In (name, info) commands ->
    is_Some (loadFiles files table !! name).
Proof.
  induction files as [|[fname content] rest IH];
    intros table file commands name info Hf Hext Hin; [destruct Hf|].
  simpl. destruct Hf as [Hf|Hf].
  - injection Hf as -> ->. rewrite Hext. simpl.
    apply loadFiles_keeps. eapply addCommands_adds, Hin.
  - destruct (String.eqb (Ext fname) ".json");
      [destruct content|]; eapply IH; eauto.
Qed.

(** C7, as the code has it.  Every descriptor entry of a parsed [.json] file
    is in the registry under its name token exactly as the file writes it,
    and the record there carries that key as its name; a lookup with the
    upper-case name succeeds when the token is upper-case already. *)
Theorem loadCommandsFromJSON_indexed_by_name
    (files : list (string * fileContent)) (file : string)
    (commands : list (string * CommandInfo)) (name : string)
    (info : CommandInfo) :
  In (file, Parsed commands) files ->
  Ext file = ".json" ->
  In (name, info) commands ->
  (exists c, loadCommandsFromJSON files !! name = Some c /\ Name c = name) /\
  (ToUpper name = name ->
   is_Some (loadCommandsFromJSON files !! ToUpper name)).
Proof.
  intros Hf Hext Hin.
  destruct (loadFiles_adds files ∅ file commands name info Hf Hext Hin)
    as [c Hc].
  split.
  - exists c. split; [exact Hc|].
    eapply loadCommandsFromJSON_namedByKey, Hc.
  - intros ->. exists c. exact Hc.
Qed.

Lemma loadCommandsFromJSON_indexed_by_name_witness :
  (exists c, loadCommandsFromJSON sampleFiles !! "SET" = Some c /\
             Name c = "SET") /\
  is_Some (loadCommandsFromJSON sampleFiles !! ToUpper "SET").
Proof.
  destruct (loadCommandsFromJSON_indexed_by_name sampleFiles "set.json"
              [("SET", sampleInfo "handleSetCommand")] "SET"
              (sampleInfo "handleSetCommand")) as [H1 H2].
  - simpl. right. left. reflexivity.
  - reflexivity.
  - simpl. left. reflexivity.
  - split; [exact H1 | apply H2; reflexivity].
Defined.

(** C7 as stated fails.  A descriptor named in lower case is registered under
    the lower-case key; the lookup with the upper-case name finds nothing. *)
Lemma loadCommandsFromJSON_keeps_case :
  let table :=
    loadCommandsFromJSON [("ping.json", Parsed [("ping", sampleInfo "pingCommand")])]
  in
  ToUpper "ping" = "PING" /\
  table !! "PING" = None /\
  table !! "ping" = Some (makeCommand "ping" (sampleInfo "pingCommand")) /\
  handleCommands table newRedisServer "PING" [] 0
  = Ok (newRedisServer, "-ERR Unknown command: PING" +:+ CRLF).
Proof. vm_compute. repeat split. Qed.

(** ** Dispatch *)

Lemma getFunctionByName_unknown (name : string) :
  name <> "pingCommand" -> name <> "echoCommand" ->
  name <> "handleSetCommand" -> name <> "handleGetCommand" ->
  getFunctionByName name = None.
Proof.
  intros H1 H2 H3 H4. unfold getFunctionByName.
  apply String.eqb_neq in H1, H2, H3, H4. now rewrite H1, H2, H3, H4.
Qed.

(** Dispatching a registered command whose handler is nil panics. *)
Lemma handleCommands_nil_function (table : gmap string RedisCommand)
    (server : RedisServer) (cmd : string) (args : list value) (now : Z)
    (command : RedisCommand) :
  table !! cmd = Some command ->
  Function command = None ->
  handleCommands table server cmd args now
  = Panic "invalid memory address or nil pointer dereference".
Proof. intros H1 H2. unfold handleCommands. now rewrite H1, H2. Qed.

(** C5.  A descriptor with an unrecognized function token is registered with
    a nil handler, and dispatching that command calls the nil function: the
    outcome is a panic, not an error reply. *)
Theorem handleCommands_unresolved_handler_panics :
  let table :=
    loadCommandsFromJSON [("foo.json", Parsed [("FOO", sampleInfo "fooCommand")])]
  in
  (exists c, table !! "FOO" = Some c /\ Function c = None) /\
  forall (server : RedisServer) (args : list value) (now : Z),
    handleCommands table server "FOO" args now
    = Panic "invalid memory address or nil pointer dereference".
Proof.
  split.
  - eexists. split; vm_compute; reflexivity.
  - intros server args now.
    apply handleCommands_nil_function
      with (command := makeCommand "FOO" (sampleInfo "fooCommand"));
      vm_compute; reflexivity.
Qed.

Lemma addReplyBulk_single (s : string) :
  addReplyBulk [VStr s] = bulkString s.
Proof.
  rewrite addReplyBulk_eq. change [VStr s] with (map VStr [s]).
  cbv iota. rewrite bulkLoop_strings. simpl. now rewrite append_empty_r.
Qed.

(** C9, as the code has it.  When the registry built by the loader binds
    [PING] to the ping handler, dispatching [PING] leaves the server as it is
    and replies: with no argument [+PONG\r\n]; with exactly one argument
    that is a string, that string as a bulk string; with more than one
    argument the arity error. *)
Theorem handleCommands_ping (files : list (string * fileContent))
    (command : RedisCommand) (server : RedisServer) (now : Z) :
  loadCommandsFromJSON files !! "PING" = Some command ->
  Function command = Some fnPing ->
  handleCommands (loadCommandsFromJSON files) server "PING" [] now
  = Ok (server, "+PONG" +:+ CRLF) /\
  (forall s : string,
      handleCommands (loadCommandsFromJSON files) server "PING" [VStr s] now
      = Ok (server, bulkString s)) /\
  (forall (a b : value) (rest : list value),
      handleCommands (loadCommandsFromJSON files) server "PING"
        (a :: b :: rest) now
      = Ok (server, addReplyErrorArity)).
Proof.
  intros Hc Hf.
  pose proof (loadCommandsFromJSON_namedByKey files _ _ Hc) as Hname.
  unfold handleCommands. rewrite Hc, Hf. simpl callFunction.
  unfold handlePingCommand. repeat split.
  - simpl. rewrite Hc. simpl. unfold addReply. now rewrite Hname.
  - intros s. simpl. now rewrite addReplyBulk_single.
Qed.

Lemma handleCommands_ping_witness :
  handleCommands (loadCommandsFromJSON sampleFiles) newRedisServer "PING" [] 7
  = Ok (newRedisServer, "+PONG" +:+ CRLF) /\
  (forall s : string,
      handleCommands (loadCommandsFromJSON sampleFiles) newRedisServer "PING"
        [VStr s] 7
      = Ok (newRedisServer, bulkString s)) /\
  (forall (a b : value) (rest : list value),
      handleCommands (loadCommandsFromJSON sampleFiles) newRedisServer "PING"
        (a :: b :: rest) 7
      = Ok (newRedisServer, addReplyErrorArity)).
Proof.
  apply (handleCommands_ping sampleFiles
           (makeCommand "PING" (sampleInfo "pingCommand")) newRedisServer 7).
  - vm_compute. reflexivity.
  - reflexivity.
Defined.

(** C9 as stated fails for an argument that is not a string.  The frame
    [*2\r\n$4\r\nPING\r\n$-1\r\n] decodes to [PING] with one null argument,
    and the reply is the unsupported-type error, not the argument echoed as
    a bulk value. *)
Lemma handleCommands_ping_null_argument :
  readCommand ("*2" +:+ CRLF +:+ "$4" +:+ CRLF +:+ "PING" +:+ CRLF
                    +:+ "$-1" +:+ CRLF)
  = Ok ("PING", [VNil], EmptyString) /\
  handleCommands (loadCommandsFromJSON sampleFiles) newRedisServer "PING"
    [VNil] 0
  = Ok (newRedisServer, "-ERR Unknown argument type <nil>" +:+ CRLF) /\
  "-ERR Unknown argument type <nil>" +:+ CRLF <> bulkEncodingSpec VNil.
Proof. repeat split; vm_compute; congruence. Qed.

(** ** Store: SET and GET *)

(** What a call of [handleSetCommand] can do: reply with an error line and
    leave the server alone, or reply [+OK] after one of its two updates. *)
Lemma handleSetCommand_outcome (server : RedisServer) (cmd : string)
    (args : list value) (now : Z) :
  let r := handleSetCommand server cmd args now in
  (fst r = server /\ isErrorReply (snd r) = true) \/
  (snd r = "+OK" +:+ CRLF /\
   exists key val,
     (exists e, fst r = {| Storage := <[key := val]> (Storage server);
                           Expirations := <[key := e]> (Expirations server) |})
     \/ fst r = {| Storage := <[key := val]> (Storage server);
                   Expirations := delete key (Expirations server) |}).
Proof.
  unfold handleSetCommand. break_handler; simpl;
    first [ left; split; reflexivity
          | right; split; [reflexivity|]; eauto 6 ].
Qed.

(** What a call of [handleGetCommand] can do. *)
Lemma handleGetCommand_outcome (server : RedisServer) (cmd : string)
    (args : list value) (now : Z) :
  let r := handleGetCommand server cmd args now in
  (fst r = server /\ isErrorReply (snd r) = true) \/
  (fst r = server /\ isErrorReply (snd r) = false) \/
  (snd r = "$-1" +:+ CRLF /\
   exists key,
     fst r = {| Storage := delete key (Storage server);
                Expirations := delete key (Expirations server) |}).
Proof.
  unfold handleGetCommand. break_handler; simpl;
    first [ left; split; reflexivity
          | right; left; split; reflexivity
          | right; right; split; [reflexivity|]; eauto ].
Qed.






(** C10.  When SET or GET replies with an error line, the server after the
    call is the server before it: neither mapping has changed. *)
Theorem error_reply_leaves_store (server : RedisServer) (cmd : string)
    (args : list value) (now : Z) :
  (isErrorReply (snd (handleSetCommand server cmd args now)) = true ->
   fst (handleSetCommand server cmd args now) = server) /\
  (isErrorReply (snd (handleGetCommand server cmd args now)) = true ->
   fst (handleGetCommand server cmd args now) = server).
Proof.
  split; intros H.
  - destruct (handleSetCommand_outcome server cmd args now)
      as [[E _] | [E _]]; [exact E|].
    rewrite E in H. discriminate H.
  - destruct (handleGetCommand_outcome server cmd args now)
      as [[E _] | [[E _] | [E _]]]; try exact E.
    rewrite E in H. discriminate H.
Qed.

Lemma error_reply_leaves_store_witness :
  fst (handleSetCommand newRedisServer "SET"
         [VStr "k"; VStr "v"; VStr "EX"; VStr "10"] 5) = newRedisServer /\
  fst (handleGetCommand newRedisServer "GET" [VNil] 5) = newRedisServer.
Proof.
  destruct (error_reply_leaves_store newRedisServer "SET"
              [VStr "k"; VStr "v"; VStr "EX"; VStr "10"] 5) as [H1 _].
  destruct (error_reply_leaves_store newRedisServer "GET" [VNil] 5)
    as [_ H2].
  split; [apply H1 | apply H2]; reflexivity.
Defined.

(** The error replies of SET, case by case. *)
Lemma handleSetCommand_errors (server : RedisServer) (cmd : string)
    (now : Z) :
  (forall args, length args <> 2%nat -> length args <> 4%nat ->
     handleSetCommand server cmd args now = (server, addReplyErrorArity)) /\
  (forall key val opt expiry,
     ToUpper opt <> "PX" ->
     handleSetCommand server cmd
       [VStr key; VStr val; VStr opt; VStr expiry] now
     = (server, "-ERR Invalid expiry option" +:+ CRLF)) /\
  (forall key val opt expiry,
     ToUpper opt = "PX" -> Atoi expiry = None ->
     handleSetCommand server cmd
       [VStr key; VStr val; VStr opt; VStr expiry] now
     = (server, "-ERR Invalid expiry value" +:+ CRLF)).
Proof.
  repeat split.
  - intros args H2 H4. unfold handleSetCommand.
    apply Nat.eqb_neq in H2, H4. now rewrite H2, H4.
  - intros key val opt expiry H. unfold handleSetCommand. simpl.
    apply String.eqb_neq in H. now rewrite H.
  - intros key val opt expiry H HA. unfold handleSetCommand. simpl.
    apply String.eqb_eq in H. now rewrite H, HA.
Qed.

(** The two successful forms of SET, for an expiry whose nanosecond count
    fits a [time.Duration]. *)
Lemma handleSetCommand_success (server : RedisServer) (cmd : string)
    (now : Z) :
  (forall key val,
     handleSetCommand server cmd [VStr key; VStr val] now
     = ({| Storage := <[key := val]> (Storage server);
           Expirations := delete key (Expirations server) |},
        "+OK" +:+ CRLF)) /\
  (forall key val opt expiry n,
     ToUpper opt = "PX" -> Atoi expiry = Some n ->
     minInt <= n * Millisecond <= maxInt ->
     handleSetCommand server cmd
       [VStr key; VStr val; VStr opt; VStr expiry] now
     = ({| Storage := <[key := val]> (Storage server);
           Expirations := <[key := now + n * Millisecond]> (Expirations server) |},
        "+OK" +:+ CRLF)).
Proof.
  split.
  - reflexivity.
  - intros key val opt expiry n H HA Hr. unfold handleSetCommand. simpl.
    apply String.eqb_eq in H. rewrite H, HA. simpl.
    unfold timeAdd, durationOfMillis. now rewrite wrap64_small.
Qed.

(** C1.  [SET k v PX 9223372036855]: the expiry parses, but its count of
    nanoseconds does not fit the 64-bit [time.Duration] and the product wraps
    to a negative duration.  The recorded expiration is about 292 years
    before [now], not [now] plus the given milliseconds, and a GET at the
    same instant already finds the key expired. *)
Theorem handleSetCommand_px_overflow (server : RedisServer) (now : Z) :
  let args := [VStr "k"; VStr "v"; VStr "PX"; VStr "9223372036855"] in
  let after := fst (handleSetCommand server "SET" args now) in
  Atoi "9223372036855" = Some 9223372036855 /\
  snd (handleSetCommand server "SET" args now) = "+OK" +:+ CRLF /\
  Expirations after !! "k" = Some (now - 9223372036854551616) /\
  now - 9223372036854551616 <> now + 9223372036855 * Millisecond /\
  snd (handleGetCommand after "GET" [VStr "k"] now) = "$-1" +:+ CRLF.
Proof.
  cbv zeta.
  assert (handleSetCommand server "SET"
            [VStr "k"; VStr "v"; VStr "PX"; VStr "9223372036855"] now
          = ({| Storage := <["k" := "v"]> (Storage server);
                Expirations := <["k" := now - 9223372036854551616]>
                                 (Expirations server) |},
             "+OK" +:+ CRLF)) as E.
  { unfold handleSetCommand. simpl.
    change (Atoi "9223372036855") with (Some 9223372036855). cbv iota.
    unfold timeAdd.
    change (durationOfMillis 9223372036855) with (-9223372036854551616).
    reflexivity. }
  rewrite E. simpl fst. simpl snd. repeat split.
  - simpl. apply lookup_insert_eq.
  - unfold Millisecond. lia.
  - unfold handleGetCommand. simpl. rewrite lookup_insert_eq.
    unfold timeAfter.
    replace (now - 9223372036854551616 <? now) with true
      by (symmetry; apply Z.ltb_lt; lia).
    reflexivity.
Qed.

(** C2, as the code has it.  GET with one string argument: when the key has
    an expiration strictly before the current time, both records of the key
    are removed and the reply is the null bulk value; otherwise the reply is
    the stored value as a bulk string, or the null bulk value when there is
    none, and the server is unchanged.  Any other argument count gives the
    arity error. *)
Theorem handleGetCommand_spec (server : RedisServer) (cmd key : string)
    (now : Z) :
  (forall expiration,
     Expirations server !! key = Some expiration -> expiration < now ->
     handleGetCommand server cmd [VStr key] now
     = ({| Storage := delete key (Storage server);
           Expirations := delete key (Expirations server) |},
        "$-1" +:+ CRLF)) /\
  ((forall expiration,
      Expirations server !! key = Some expiration -> now <= expiration) ->
   (forall val, Storage server !! key = Some val ->
      handleGetCommand server cmd [VStr key] now = (server, bulkString val)) /\
   (Storage server !! key = None ->
      handleGetCommand server cmd [VStr key] now = (server, "$-1" +:+ CRLF))) /\
  (forall args, length args <> 1%nat ->
     handleGetCommand server cmd args now = (server, addReplyErrorArity)).
Proof.
  split; [|split].
  - intros e He Hlt. unfold handleGetCommand. simpl. rewrite He.
    unfold timeAfter. apply Z.ltb_lt in Hlt. now rewrite Hlt.
  - intros Hlive.
    assert (match Expirations server !! key with
            | Some expiration => timeAfter now expiration
            | None => false
            end = false) as Hskip.
    { destruct (Expirations server !! key) as [e|] eqn:He; [|reflexivity].
      specialize (Hlive e eq_refl). unfold timeAfter.
      apply Z.ltb_ge. lia. }
    split.
    + intros val Hv. unfold handleGetCommand. simpl.
      now rewrite Hskip, Hv, addReplyBulk_single.
    + intros Hv. unfold handleGetCommand. simpl. now rewrite Hskip, Hv.
  - intros args H. unfold handleGetCommand.
    apply Nat.eqb_neq in H. now rewrite H.
Qed.

Lemma handleGetCommand_spec_witness :
  let server := {| Storage := {["k" := "v"]}; Expirations := {["k" := 100]} |} in
  handleGetCommand server "GET" [VStr "k"] 101
  = ({| Storage := delete "k" (Storage server);
        Expirations := delete "k" (Expirations server) |}, "$-1" +:+ CRLF) /\
  handleGetCommand server "GET" [VStr "k"] 99 = (server, bulkString "v") /\
  handleGetCommand server "GET" [VStr "other"] 99 = (server, "$-1" +:+ CRLF) /\
  handleGetCommand server "GET" [] 99 = (server, addReplyErrorArity).
Proof.
  intros server.
  destruct (handleGetCommand_spec server "GET" "k" 101) as (H1 & _ & _).
  destruct (handleGetCommand_spec server "GET" "k" 99) as (_ & H2 & H4).
  destruct (handleGetCommand_spec server "GET" "other" 99) as (_ & H3 & _).
  split; [|split; [|split]].
  - apply (H1 100); [reflexivity | lia].
  - apply H2; [|reflexivity].
    intros e He. vm_compute in He. injection He as <-. lia.
  - apply H3; [|reflexivity].
    intros e He. vm_compute in He. discriminate He.
  - apply H4. simpl. lia.
Defined.

(** C2 as stated fails at the instant of expiration.  [SET k v PX 0] at time
    100 records the expiration 100; a GET at time 100 finds an expiration
    that is at (not after) the current time, and still replies with the value
    and removes nothing.  One nanosecond later the key is gone. *)
Lemma handleGetCommand_at_expiration_instant :
  let server :=
    fst (handleSetCommand newRedisServer "SET"
           [VStr "k"; VStr "v"; VStr "PX"; VStr "0"] 100) in
  Expirations server !! "k" = Some 100 /\
  100 <= 100 /\
  handleGetCommand server "GET" [VStr "k"] 100 = (server, bulkString "v") /\
  bulkString "v" <> "$-1" +:+ CRLF /\
  Storage (fst (handleGetCommand server "GET" [VStr "k"] 100)) !! "k"
  = Some "v" /\
  snd (handleGetCommand server "GET" [VStr "k"] 101) = "$-1" +:+ CRLF.
Proof. vm_compute. repeat split; congruence. Qed.

(** ** Case-insensitive comparison with [PX] *)

Lemma toUpperByte_P (c : ascii) :
  toUpperByte c = "P"%char -> c = "P"%char \/ c = "p"%char.
Proof.
  destruct c as [[] [] [] [] [] [] [] []]; vm_compute; intros H;
    first [discriminate H | now left | now right].
Qed.

Lemma toUpperByte_X (c : ascii) :
  toUpperByte c = "X"%char -> c = "X"%char \/ c = "x"%char.
Proof.
  destruct c as [[] [] [] [] [] [] [] []]; vm_compute; intros H;
    first [discriminate H | now left | now right].
Qed.

(** The option test of SET accepts the four spellings of [PX] and nothing
    else. *)
Lemma ToUpper_PX (opt : string) :
  ToUpper opt = "PX" <->
  opt = "PX" \/ opt = "Px" \/ opt = "pX" \/ opt = "px".
Proof.
  split.
  - destruct opt as [|a [|b [|c r]]]; simpl; try discriminate.
    intros H. injection H as Ha Hb.
    destruct (toUpperByte_P a Ha) as [-> | ->],
             (toUpperByte_X b Hb) as [-> | ->]; auto.
  - intros [-> | [-> | [-> | ->]]]; reflexivity.
Qed.

(** ** Worked examples *)

Example Atoi_examples :
  Atoi "42" = Some 42 /\ Atoi "-1" = Some (-1) /\ Atoi "+7" = Some 7 /\
  Atoi EmptyString = None /\ Atoi "-" = None /\ Atoi "1_0" = None /\ Atoi " 1" = None /\
  Atoi "9223372036854775807" = Some maxInt /\
  Atoi "9223372036854775808" = None /\
  Atoi "-9223372036854775808" = Some minInt.
Proof. repeat split; reflexivity. Qed.

Example formatInt_examples :
  formatInt 0 = "0" /\ formatInt 3 = "3" /\ formatInt 120 = "120" /\
  formatInt (-45) = "-45".
Proof. repeat split; reflexivity. Qed.

Example TrimSpace_examples :
  TrimSpace (" 12" +:+ CRLF) = "12" /\ TrimSpace CRLF = EmptyString /\
  TrimSpace "a b " = "a b".
Proof. repeat split; reflexivity. Qed.

Example Ext_examples :
  Ext "ping.json" = ".json" /\ Ext "a.b.json" = ".json" /\ Ext "README" = EmptyString /\
  Ext "x.txt" = ".txt".
Proof. repeat split; reflexivity. Qed.

(** An inline command, an empty line, an empty array and a null command
    name. *)
Example readCommand_examples :
  readCommand ("ping" +:+ CRLF +:+ "next") = Ok ("PING", [], "next") /\
  readCommand CRLF = Ok (EmptyString, [], EmptyString) /\
  readCommand ("*0" +:+ CRLF) = Ok (EmptyString, [], EmptyString) /\
  readCommand ("*1" +:+ CRLF +:+ "$-1" +:+ CRLF)
  = Err (ErrInvalidCommand VNil) /\
  readCommand "*1" = Err EOF /\
  readCommand ("*1" +:+ CRLF +:+ "$5" +:+ CRLF +:+ "ab")
  = Err ErrUnexpectedEOF /\
  readCommand ("*x" +:+ CRLF) = Err (ErrAtoi "x").
Proof. repeat split; vm_compute; reflexivity. Qed.

(** SET foo bar, GET foo, then an inline PING, on one connection. *)
Example concrete_scenario :
  let table := loadCommandsFromJSON sampleFiles in
  let stream :=
    "*3" +:+ CRLF +:+ "$3" +:+ CRLF +:+ "SET" +:+ CRLF +:+ "$3" +:+ CRLF
         +:+ "foo" +:+ CRLF +:+ "$3" +:+ CRLF +:+ "bar" +:+ CRLF
         +:+ "*2" +:+ CRLF +:+ "$3" +:+ CRLF +:+ "GET" +:+ CRLF +:+ "$3"
         +:+ CRLF +:+ "foo" +:+ CRLF +:+ "PING" +:+ CRLF in
  exists r1 r2 s1,
    readCommand stream = Ok ("SET", [VStr "foo"; VStr "bar"], r1) /\
    handleCommands table newRedisServer "SET" [VStr "foo"; VStr "bar"] 0
    = Ok (s1, "+OK" +:+ CRLF) /\
    readCommand r1 = Ok ("GET", [VStr "foo"], r2) /\
    handleCommands table s1 "GET" [VStr "foo"] 1
    = Ok (s1, "$3" +:+ CRLF +:+ "bar" +:+ CRLF) /\
    readCommand r2 = Ok ("PING", [], EmptyString) /\
    handleCommands table s1 "PING" [] 2 = Ok (s1, "+PONG" +:+ CRLF).
Proof. do 3 eexists. repeat split; vm_compute; reflexivity. Qed.

(** Overwriting without an expiry clears the one recorded before: the value
    is still there after the old deadline. *)
Example overwrite_clears_expiry :
  let s1 := fst (handleSetCommand newRedisServer "SET"
                   [VStr "key"; VStr "v1"; VStr "PX"; VStr "10"] 0) in
  let s2 := fst (handleSetCommand s1 "SET" [VStr "key"; VStr "v2"] 5000000) in
  Expirations s1 !! "key" = Some 10000000 /\
  Expirations s2 !! "key" = None /\
  handleGetCommand s2 "GET" [VStr "key"] 20000000 = (s2, bulkString "v2").
Proof. vm_compute. repeat split. Qed.

(** * Further properties *)

(** ** Store: how SET and GET compose *)


(** A value stored by the two-argument SET is what GET of that key returns,
    at any later or earlier clock reading, and GET leaves the server as SET
    left it. *)
Theorem set_then_get (server : RedisServer) (cmd cmd' key val : string)
    (now now' : Z) :
  handleGetCommand
    (fst (handleSetCommand server cmd [VStr key; VStr val] now))
    cmd' [VStr key] now'
  = (fst (handleSetCommand server cmd [VStr key; VStr val] now),
     bulkString val).
Proof.
  unfold handleSetCommand, handleGetCommand. simpl.
  rewrite lookup_delete_eq, lookup_insert_eq. now rewrite addReplyBulk_single.
Qed.

(** SET with an expiry and GET: up to and including the deadline the value is
    returned and nothing changes; after the deadline GET returns the null
    bulk value and the key is gone from both mappings. *)
Theorem set_px_then_get (server : RedisServer)
    (cmd cmd' key val opt expiry : string) (n now now' : Z) :
  ToUpper opt = "PX" ->
  Atoi expiry = Some n ->
  minInt <= n * Millisecond <= maxInt ->
  let after :=
    fst (handleSetCommand server cmd
           [VStr key; VStr val; VStr opt; VStr expiry] now) in
  (now' <= now + n * Millisecond ->
   handleGetCommand after cmd' [VStr key] now' = (after, bulkString val)) /\
  (now + n * Millisecond < now' ->
   snd (handleGetCommand after cmd' [VStr key] now') = "$-1" +:+ CRLF /\
   Storage (fst (handleGetCommand after cmd' [VStr key] now')) !! key = None /\
   Expirations (fst (handleGetCommand after cmd' [VStr key] now')) !! key
   = None).
Proof.
  intros Hopt HA Hr after.
  assert (after = {| Storage := <[key := val]> (Storage server);
                     Expirations := <[key := now + n * Millisecond]>
                                      (Expirations server) |}) as E.
  { unfold after, handleSetCommand. simpl.
    apply String.eqb_eq in Hopt. rewrite Hopt, HA. simpl.
    unfold timeAdd, durationOfMillis. now rewrite wrap64_small. }
  clearbody after. subst after. split.
  - intros Hle. unfold handleGetCommand. simpl. rewrite !lookup_insert_eq.
    unfold timeAfter.
    replace (now + n * Millisecond <? now') with false
      by (symmetry; apply Z.ltb_ge; lia).
    now rewrite addReplyBulk_single.
  - intros Hlt. unfold handleGetCommand. simpl. rewrite !lookup_insert_eq.
    unfold timeAfter.
    replace (now + n * Millisecond <? now') with true
      by (symmetry; apply Z.ltb_lt; lia).
    simpl. rewrite !lookup_delete_eq. auto.
Qed.

Lemma set_px_then_get_witness :
  let after :=
    fst (handleSetCommand newRedisServer "SET"
           [VStr "k"; VStr "v"; VStr "px"; VStr "10"] 0) in
  handleGetCommand after "GET" [VStr "k"] 10000000 = (after, bulkString "v") /\
  snd (handleGetCommand after "GET" [VStr "k"] 10000001) = "$-1" +:+ CRLF.
Proof.
  intros after.
  destruct (set_px_then_get newRedisServer "SET" "GET" "k" "v" "px" "10"
              10 0 10000000) as [H1 _];
    [reflexivity | reflexivity | vm_compute; split; discriminate |].
  destruct (set_px_then_get newRedisServer "SET" "GET" "k" "v" "px" "10"
              10 0 10000001) as [_ H2];
    [reflexivity | reflexivity | vm_compute; split; discriminate |].
  split.
  - apply H1. vm_compute. discriminate.
  - apply H2. reflexivity.
Defined.

(** SET and GET touch only the records of the key given as their first
    argument: for any other key both mappings answer as before. *)
Theorem set_get_other_keys (server : RedisServer) (cmd : string)
    (args : list value) (now : Z) (key' : string) :
  nth 0 args VNil <> VStr key' ->
  (Storage (fst (handleSetCommand server cmd args now)) !! key'
   = Storage server !! key' /\
   Expirations (fst (handleSetCommand server cmd args now)) !! key'
   = Expirations server !! key') /\
  (Storage (fst (handleGetCommand server cmd args now)) !! key'
   = Storage server !! key' /\
   Expirations (fst (handleGetCommand server cmd args now)) !! key'
   = Expirations server !! key').
Proof.
  intros Hk.
  assert (forall key, asString (nth 0 args VNil) = Some key -> key <> key')
    as Hne.
  { intros key H <-. destruct (nth 0 args VNil); try discriminate.
    injection H as ->. now apply Hk. }
  split.
  - unfold handleSetCommand.
    destruct (negb (length args =? 2)%nat && negb (length args =? 4)%nat);
      [now split|].
    destruct (asString (nth 0 args VNil)) as [key|] eqn:E0; [|now split].
    specialize (Hne key eq_refl).
    break_handler; simpl; try (now split);
      rewrite ?lookup_insert_ne, ?lookup_delete_ne by assumption; now split.
  - unfold handleGetCommand.
    destruct (negb (length args =? 1)%nat); [now split|].
    destruct (asString (nth 0 args VNil)) as [key|] eqn:E0; [|now split].
    specialize (Hne key eq_refl).
    break_handler; simpl; try (now split);
      rewrite ?lookup_delete_ne by assumption; now split.
Qed.

Lemma set_get_other_keys_witness :
  Storage (fst (handleSetCommand newRedisServer "SET"
                  [VStr "a"; VStr "1"] 0)) !! "b"
  = Storage newRedisServer !! "b".
Proof.
  apply (set_get_other_keys newRedisServer "SET" [VStr "a"; VStr "1"] 0 "b").
  simpl. discriminate.
Defined.

(** GET repeated at the same clock reading gives the same reply and changes
    nothing more: the first call has already removed whatever had expired. *)
Theorem get_twice (server : RedisServer) (cmd : string) (args : list value)
    (now : Z) :
  handleGetCommand (fst (handleGetCommand server cmd args now)) cmd args now
  = handleGetCommand server cmd args now.
Proof.
  unfold handleGetCommand.
  destruct (negb (length args =? 1)%nat); [reflexivity|].
  destruct (asString (nth 0 args VNil)) as [key|]; [|reflexivity].
  destruct (match Expirations server !! key with
            | Some expiration => timeAfter now expiration
            | None => false
            end) eqn:Hexp.
  - simpl. now rewrite !lookup_delete_eq.
  - destruct (Storage server !! key) eqn:Hv; simpl; now rewrite Hexp, Hv.
Qed.



(** ** ECHO *)

(** ECHO with exactly one argument that is a string replies with it as a bulk
    string; with one argument of another type (null or an array) it replies
    with the type error; with any other argument count it replies with the
    arity error.  The server is never changed. *)
Theorem handleEchoCommand_spec (server : RedisServer) (cmd : string)
    (now : Z) :
  (forall s : string,
      handleEchoCommand server cmd [VStr s] now = (server, bulkString s)) /\
  (forall v : value, asString v = None ->
      handleEchoCommand server cmd [v] now
      = (server, "-ERR Invalid argument type" +:+ CRLF)) /\
  (forall args : list value, length args <> 1%nat ->
      handleEchoCommand server cmd args now = (server, addReplyErrorArity)).
Proof.
  split; [|split].
  - intros s. unfold handleEchoCommand. simpl. now rewrite addReplyBulk_single.
  - intros v Hv. unfold handleEchoCommand. simpl. now rewrite Hv.
  - intros args H. unfold handleEchoCommand.
    apply Nat.eqb_neq in H. now rewrite H.
Qed.

Lemma handleEchoCommand_spec_witness :
  handleEchoCommand newRedisServer "ECHO" [VArr [VStr "a"]] 0
  = (newRedisServer, "-ERR Invalid argument type" +:+ CRLF) /\
  handleEchoCommand newRedisServer "ECHO" [] 0
  = (newRedisServer, addReplyErrorArity).
Proof.
  destruct (handleEchoCommand_spec newRedisServer "ECHO" 0) as (_ & H2 & H3).
  split.
  - apply H2. reflexivity.
  - apply H3. simpl. lia.
Defined.

(** ** Loader: where the records of the registry come from *)

Lemma addCommands_origin (commands : list (string * CommandInfo)) :
  forall table key c,
    addCommands commands table !! key = Some c ->
    table !! key = Some c \/
    exists info, In (key, info) commands /\ c = makeCommand key info.
Proof.
  induction commands as [|[cmdName i] rest IH]; intros table key c H;
    [now left|].
  simpl in H. apply IH in H. destruct H as [H | (info & Hin & ->)].
  - destruct (decide (cmdName = key)) as [->|Hne].
    + rewrite lookup_insert_eq in H. injection H as <-.
      right. exists i. split; [now left | reflexivity].
    + rewrite lookup_insert_ne in H by assumption. now left.
  - right. exists info. split; [now right | reflexivity].
Qed.

Lemma loadFiles_origin (files : list (string * fileContent)) :
  forall table key c,
    loadFiles files table !! key = Some c ->
    table !! key = Some c \/
    exists file commands info,
      In (file, Parsed commands) files /\ Ext file = ".json" /\
      In (key, info) commands /\ c = makeCommand key info.
Proof.
  induction files as [|[name content] rest IH]; intros table key c H;
    [now left|].
  simpl in H.
  assert (forall t, loadFiles rest t !! key = Some c ->
            t !! key = Some c \/
            exists file commands info,
              In (file, Parsed commands) ((name, content) :: rest) /\
              Ext file = ".json" /\ In (key, info) commands /\
              c = makeCommand key info) as Hrest.
  { intros t Ht. apply IH in Ht.
    destruct Ht as [Ht | (f & cs & i & Hin & He & Hk & ->)]; [now left|].
    right. exists f, cs, i. repeat split; try assumption. now right. }
  destruct (String.eqb (Ext name) ".json") eqn:Hext; [|now apply Hrest].
  destruct content as [| |commands]; try now apply Hrest.
  apply Hrest in H. destruct H as [H|H]; [|now right].
  apply addCommands_origin in H. destruct H as [H | (info & Hin & ->)];
    [now left|].
  right. exists name, commands, info.
  apply String.eqb_eq in Hext. repeat split; try assumption. now left.
Qed.

(** Every record of the registry comes from an entry of a directory file
    with extension [.json] that was read and parsed, and is the record built
    from that entry, stored under the entry's name.  Other files, unreadable
    files and files that fail to parse add nothing. *)
Theorem loadCommandsFromJSON_origin (files : list (string * fileContent))
    (key : string) (c : RedisCommand) :
  loadCommandsFromJSON files !! key = Some c ->
  exists file commands info,
    In (file, Parsed commands) files /\ Ext file = ".json" /\
    In (key, info) commands /\ c = makeCommand key info.
Proof.
  intros H. apply loadFiles_origin in H. destruct H as [H|H]; [|exact H].
  rewrite lookup_empty in H. discriminate H.
Qed.

Lemma loadCommandsFromJSON_origin_witness :
  exists file commands info,
    In (file, Parsed commands) sampleFiles /\ Ext file = ".json" /\
    In ("GET", info) commands /\
    makeCommand "GET" (sampleInfo "handleGetCommand") = makeCommand "GET" info.
Proof.
  apply (loadCommandsFromJSON_origin sampleFiles "GET"
           (makeCommand "GET" (sampleInfo "handleGetCommand"))).
  vm_compute. reflexivity.
Defined.

(** A directory in which no file is a parsed [.json] file gives the empty
    registry. *)
Lemma loadCommandsFromJSON_nothing_loaded (files : list (string * fileContent)) :
  (forall file commands, In (file, Parsed commands) files ->
                         Ext file <> ".json") ->
  loadCommandsFromJSON files = ∅.
Proof.
  intros H. apply map_eq. intros key. rewrite lookup_empty.
  destruct (loadCommandsFromJSON files !! key) as [c|] eqn:E; [|reflexivity].
  apply loadFiles_origin in E. destruct E as [E|E]; [rewrite lookup_empty in E; discriminate E|].
  destruct E as (f & cs & i & Hin & He & _). now apply H in Hin.
Qed.

(** ** Dispatch over a loaded registry *)

(** A command that no parsed [.json] descriptor names gets the
    unknown-command error reply carrying its name, and the server is left as
    it was. *)
Theorem handleCommands_unknown_command (files : list (string * fileContent))
    (server : RedisServer) (cmd : string) (args : list value) (now : Z) :
  (forall file commands info,
      In (file, Parsed commands) files -> Ext file = ".json" ->
      ~ In (cmd, info) commands) ->
  handleCommands (loadCommandsFromJSON files) server cmd args now
  = Ok (server, "-ERR Unknown command: " +:+ cmd +:+ CRLF).
Proof.
  intros Hno. unfold handleCommands.
  destruct (loadCommandsFromJSON files !! cmd) as [c|] eqn:E; [|reflexivity].
  apply loadFiles_origin in E. destruct E as [E|E].
  - rewrite lookup_empty in E. discriminate E.
  - destruct E as (f & cs & i & Hin & He & Hk & _).
    exfalso. eapply Hno; eauto.
Qed.

Lemma handleCommands_unknown_command_witness :
  handleCommands (loadCommandsFromJSON sampleFiles) newRedisServer "FOO" [] 0
  = Ok (newRedisServer, "-ERR Unknown command: " +:+ "FOO" +:+ CRLF).
Proof.
  apply (handleCommands_unknown_command sampleFiles newRedisServer "FOO" [] 0).
  intros file commands info Hin _ Hc. unfold sampleFiles in Hin.
  simpl in Hin.
  destruct Hin as [H | [H | [H | []]]]; inversion H; subst;
    simpl in Hc; (destruct Hc as [Hc | Hc]; [discriminate Hc | destruct Hc]).
Defined.



(** Only the SET and GET handlers change the store: a request whose command
    is not registered, or is bound to the ping or the echo handler, is
    answered with the server left exactly as it was. *)
Theorem handleCommands_store_unchanged (table : gmap string RedisCommand)
    (server : RedisServer) (cmd : string) (args : list value) (now : Z) :
  (forall c, table !! cmd = Some c ->
             Function c = Some fnPing \/ Function c = Some fnEcho) ->
  exists reply,
    handleCommands table server cmd args now = Ok (server, reply).
Proof.
  unfold handleCommands. intros Hfn.
  destruct (table !! cmd) as [c|] eqn:E; [|eauto].
  destruct (Hfn c eq_refl) as [-> | ->]; simpl.
  - unfold handlePingCommand. break_handler; eauto.
  - unfold handleEchoCommand. break_handler; eauto.
Qed.

Lemma handleCommands_store_unchanged_witness :
  let server :=
    fst (handleSetCommand newRedisServer "SET" [VStr "k"; VStr "v"] 0) in
  exists reply,
    handleCommands (loadCommandsFromJSON sampleFiles) server "PING"
      [VStr "k"] 1
    = Ok (server, reply).
Proof.
  intros server.
  apply (handleCommands_store_unchanged (loadCommandsFromJSON sampleFiles)
           server "PING" [VStr "k"] 1).
  intros c Hc. vm_compute in Hc. injection Hc as <-. now left.
Defined.

(** ** Loader: flags and overriding *)

Lemma packFlags_lor (flags : list string) : forall acc : Z,
  packFlags flags acc = Z.lor acc (packFlags flags 0).
Proof.
  induction flags as [|flag rest IH]; intros acc; simpl.
  - now rewrite Z.lor_0_r.
  - rewrite IH. rewrite (IH (if String.eqb flag "FAST" then _ else _)).
    rewrite Z.lor_assoc. f_equal.
    destruct (String.eqb flag "FAST"); [reflexivity|].
    destruct (String.eqb flag "SENTINEL"); [reflexivity|].
    now rewrite Z.lor_0_r.
Qed.

(** The packed flags of a record depend only on which of the two known
    tokens occur among the descriptor's flag tokens: bit 0 for [FAST], bit 1
    for [SENTINEL]; order, repetition and unknown tokens change nothing. *)
Theorem packFlags_spec (flags : list string) :
  packFlags flags 0
  = Z.lor (if bool_decide ("FAST" ∈ flags) then CMD_FAST else 0)
          (if bool_decide ("SENTINEL" ∈ flags) then CMD_SENTINEL else 0).
Proof.
  induction flags as [|flag rest IH].
  - reflexivity.
  - simpl. rewrite packFlags_lor, IH.
    assert (forall t : string,
               bool_decide (t ∈ flag :: rest)
               = String.eqb flag t || bool_decide (t ∈ rest)) as Hmem.
    { intros t. destruct (String.eqb flag t) eqn:E.
      - apply String.eqb_eq in E. subst. apply bool_decide_eq_true.
        now left.
      - apply String.eqb_neq in E. simpl.
        destruct (bool_decide (t ∈ rest)) eqn:B.
        + apply bool_decide_eq_true in B. apply bool_decide_eq_true.
          now right.
        + apply bool_decide_eq_false in B. apply bool_decide_eq_false.
          intros Hin. apply elem_of_cons in Hin.
          destruct Hin as [->|Hin]; [now apply E | now apply B]. }
    rewrite !Hmem.
    destruct (String.eqb flag "FAST") eqn:EF.
    + apply String.eqb_eq in EF. subst flag. simpl.
      destruct (bool_decide ("FAST" ∈ rest)),
               (bool_decide ("SENTINEL" ∈ rest)); reflexivity.
    + destruct (String.eqb flag "SENTINEL") eqn:ES; simpl;
        destruct (bool_decide ("FAST" ∈ rest)),
                 (bool_decide ("SENTINEL" ∈ rest)); reflexivity.
Qed.

Lemma addCommands_other (commands : list (string * CommandInfo)) :
  forall table name,
    ~ In name (map fst commands) ->
    addCommands commands table !! name = table !! name.
Proof.
  induction commands as [|[cmdName i] rest IH]; intros table name Hn;
    [reflexivity|].
  simpl in *. rewrite IH by tauto. apply lookup_insert_ne. tauto.
Qed.

Lemma addCommands_found (commands : list (string * CommandInfo)) :
  forall table name info,
    NoDup (map fst commands) ->
    In (name, info) commands ->
    addCommands commands table !! name = Some (makeCommand name info).
Proof.
  induction commands as [|[cmdName i] rest IH]; intros table name info Hnd Hin;
    [destruct Hin|].
  simpl in *. apply NoDup_cons in Hnd. destruct Hnd as [Hfresh Hnd].
  destruct Hin as [Hin|Hin].
  - injection Hin as -> ->. rewrite addCommands_other.
    + apply lookup_insert_eq.
    + intros H. apply Hfresh. now apply list_elem_of_In.
  - now apply IH.
Qed.

Lemma loadFiles_app (a b : list (string * fileContent)) :
  forall table, loadFiles (a ++ b) table = loadFiles b (loadFiles a table).
Proof.
  induction a as [|[name content] rest IH]; intros table; [reflexivity|].
  simpl. destruct (String.eqb (Ext name) ".json"); [destruct content|];
    apply IH.
Qed.

Lemma loadFiles_other (files : list (string * fileContent)) :
  forall table name,
    (forall file commands, In (file, Parsed commands) files ->
                           Ext file = ".json" ->
                           ~ In name (map fst commands)) ->
    loadFiles files table !! name = table !! name.
Proof.
  induction files as [|[fname content] rest IH]; intros table name Hno;
    [reflexivity|].
  simpl.
  assert (forall t, loadFiles rest t !! name = t !! name) as Hrest.
  { intros t. apply IH. intros f cs Hin. apply Hno. now right. }
  destruct (String.eqb (Ext fname) ".json") eqn:Hext; [|apply Hrest].
  destruct content as [| |commands]; try apply Hrest.
  rewrite Hrest. apply addCommands_other.
  apply (Hno fname commands); [now left | now apply String.eqb_eq].
Qed.

(** When several files describe a command of the same name, the record of
    the last such file in directory order is the one in the registry. *)
Theorem loadCommandsFromJSON_last_file_wins
    (before after : list (string * fileContent)) (file : string)
    (commands : list (string * CommandInfo)) (name : string)
    (info : CommandInfo) :
  Ext file = ".json" ->
  NoDup (map fst commands) ->
  In (name, info) commands ->
  (forall f cs, In (f, Parsed cs) after -> Ext f = ".json" ->
                ~ In name (map fst cs)) ->
  loadCommandsFromJSON (before ++ (file, Parsed commands) :: after) !! name
  = Some (makeCommand name info).
Proof.
  intros Hext Hnd Hin Hafter. unfold loadCommandsFromJSON.
  rewrite loadFiles_app. simpl. apply String.eqb_eq in Hext. rewrite Hext.
  rewrite loadFiles_other by assumption. now apply addCommands_found.
Qed.

Lemma loadCommandsFromJSON_last_file_wins_witness :
  loadCommandsFromJSON
    ([("a.json", Parsed [("PING", sampleInfo "echoCommand")])]
       ++ ("b.json", Parsed [("PING", sampleInfo "pingCommand")])
       :: [("c.txt", Parsed [("PING", sampleInfo "other")]); ("d.json", ParseError)])
    !! "PING"
  = Some (makeCommand "PING" (sampleInfo "pingCommand")).
Proof.
  apply (loadCommandsFromJSON_last_file_wins
           [("a.json", Parsed [("PING", sampleInfo "echoCommand")])]
           [("c.txt", Parsed [("PING", sampleInfo "other")]); ("d.json", ParseError)]
           "b.json" [("PING", sampleInfo "pingCommand")] "PING"
           (sampleInfo "pingCommand")).
  - reflexivity.
  - simpl. apply NoDup_cons. split; [apply not_elem_of_nil | apply NoDup_nil_2].
  - simpl. now left.
  - intros f cs Hin He. simpl in Hin.
    destruct Hin as [H | [H | []]]; [|discriminate H].
    inversion H; subst. vm_compute in He. discriminate He.
Defined.

(** ** The decoder without fuel *)










Lemma readRESP_empty : readRESP EmptyString = Err EOF.
Proof. reflexivity. Qed.

(** ** What the decoder returns *)





Lemma ReadString_split (r : string) : forall line rest,
  ReadString r = Some (line, rest) ->
  r = line +:+ rest /\ line <> EmptyString.
Proof.
  induction r as [|c r IH]; intros line rest H; simpl in H; [discriminate|].
  destruct (Ascii.eqb c LF).
  - injection H as <- <-. split; [reflexivity | discriminate].
  - destruct (ReadString r) as [[l r']|] eqn:E; [|discriminate].
    injection H as <- <-. destruct (IH _ _ eq_refl) as [-> _].
    split; [reflexivity | discriminate].
Qed.

Lemma ReadFull_split (r : string) : forall n buf rest,
  ReadFull r n = Some (buf, rest) -> r = buf +:+ rest.
Proof.
  induction r as [|c r IH]; intros n buf rest H; simpl in H.
  - destruct (n <=? 0); [|discriminate]. now injection H as <- <-.
  - destruct (n <=? 0); [now injection H as <- <-|].
    destruct (ReadFull r (n - 1)) as [[b r']|] eqn:E; [|discriminate].
    injection H as <- <-. now rewrite (IH _ _ _ E).
Qed.

Lemma readRESP_fuel_suffix (fuel : nat) :
  (forall r v r', readRESP_fuel fuel r = Some (Ok (v, r')) ->
     exists consumed, consumed <> EmptyString /\ r = consumed +:+ r') /\
  (forall r c i l r', readElems fuel c i r = Some (Ok (l, r')) ->
     exists consumed, r = consumed +:+ r').
Proof.
  induction fuel as [|f [IH1 IH2]]; split.
  - intros r v r' H. discriminate H.
  - intros r c i l r' H. rewrite readElems_eq in H.
    destruct (i <? c); [discriminate|]. injection H as _ <-.
    now exists EmptyString.
  - intros r v r' H. destruct r as [|p r1]; [discriminate H|].
    rewrite readRESP_fuel_eq in H.
    destruct (isPrefix p "+" || isPrefix p "-" || isPrefix p ":").
    { destruct (ReadString r1) as [[line r2]|] eqn:E; [|discriminate].
      injection H as _ <-. apply ReadString_split in E as [-> _].
      exists (String p line). split; [discriminate | reflexivity]. }
    destruct (isPrefix p "$").
    { rewrite readRESP_fuel_bulk_eq in H.
      destruct (ReadString r1) as [[line r2]|] eqn:E; [|discriminate].
      apply ReadString_split in E as [-> _].
      destruct (Atoi (TrimSpace line)) as [size|]; [|discriminate].
      destruct (size =? -1).
      { injection H as _ <-. exists (String p line).
        split; [discriminate | reflexivity]. }
      cbv zeta in H. destruct (wrap64 (size + 2) <? 0); [discriminate|].
      destruct (ReadFull r2 (wrap64 (size + 2))) as [[buf r3]|] eqn:E2;
        [|discriminate].
      apply ReadFull_split in E2 as ->.
      destruct (size <? 0); [discriminate|].
      injection H as _ <-. exists (String p (line +:+ buf)).
      split; [discriminate|]. now rewrite append_String, append_assoc. }
    destruct (isPrefix p "*"); [|discriminate].
    rewrite readRESP_fuel_array_eq in H.
    destruct (ReadString r1) as [[line r2]|] eqn:E; [|discriminate].
    apply ReadString_split in E as [-> _].
    destruct (Atoi (TrimSpace line)) as [count|]; [|discriminate].
    destruct (count <? 0); [discriminate|].
    destruct (readElems f count 0 r2) as [[[arr r3]| |]|] eqn:E2;
      try discriminate.
    injection H as _ <-. apply IH2 in E2 as [c' ->].
    exists (String p (line +:+ c')).
    split; [discriminate|]. now rewrite append_String, append_assoc.
  - intros r c i l r' H. rewrite readElems_eq in H.
    destruct (i <? c); [|injection H as _ <-; now exists EmptyString].
    destruct (readRESP_fuel f r) as [[[elem r1]| |]|] eqn:E1; try discriminate.
    destruct (readElems f c (i + 1) r1) as [[[rest r2]| |]|] eqn:E2;
      try discriminate.
    injection H as _ <-. apply IH1 in E1 as (c1 & _ & ->).
    apply IH2 in E2 as (c2 & ->). exists (c1 +:+ c2).
    now rewrite append_assoc.
Qed.

(** A command that is read takes a non-empty run of bytes from the front of
    the stream and leaves the rest untouched, so the read loop of the
    connection always advances. *)
Theorem readCommand_consumes (reader cmd rest : string) (args : list value) :
  readCommand reader = Ok (cmd, args, rest) ->
  exists consumed, consumed <> EmptyString /\ reader = consumed +:+ rest.
Proof.
  unfold readCommand. destruct reader as [|p r]; [discriminate|].
  destruct (negb (isPrefix p "*")).
  - destruct (ReadString (String p r)) as [[line rest']|] eqn:E;
      [|discriminate].
    intros H. injection H as _ _ <-.
    apply ReadString_split in E as [-> Hne]. now exists line.
  - pose proof (readRESP_fuel_enough (String p r)) as He.
    destruct (readRESP (String p r)) as [[resp rest']| |]; try discriminate.
    apply (proj1 (readRESP_fuel_suffix _)) in He.
    destruct resp as [|s|[|[|s|l] tl]]; intros H; try discriminate H;
      injection H as _ _ <-; exact He.
Qed.

Lemma readCommand_consumes_witness :
  exists consumed,
    consumed <> EmptyString /\
    "ping" +:+ CRLF +:+ "*1" = consumed +:+ "*1".
Proof.
  apply (readCommand_consumes ("ping" +:+ CRLF +:+ "*1") "PING" "*1" []).
  reflexivity.
Defined.



(** ** Nested values: round trip *)

Lemma value_ind_nested (P : value -> Prop) :
  P VNil ->
  (forall s, P (VStr s)) ->
  (forall elems, Forall P elems -> P (VArr elems)) ->
  forall v, P v.
Proof.
  intros Hn Hs Ha. fix IH 1. intros [|s|elems].
  - exact Hn.
  - apply Hs.
  - apply Ha. induction elems as [|x l IHl]; constructor.
    + apply IH.
    + exact IHl.
Qed.








(** ** Truncated input *)


Lemma append_nonempty_r (a b : string) :
  b <> EmptyString -> a +:+ b <> EmptyString.
Proof. intros H. destruct a; [exact H | discriminate]. Qed.

Lemma properPrefix_empty (s : string) :
  s <> EmptyString -> properPrefix EmptyString s.
Proof. intros H. now exists s. Qed.







Lemma encodeValue_nonempty (v : value) : encodeValue v <> EmptyString.
Proof. destruct v; discriminate. Qed.













(** ** The connection loop *)

Lemma readCommand_shorter (reader cmd rest : string) (args : list value) :
  readCommand reader = Ok (cmd, args, rest) ->
  (String.length rest < String.length reader)%nat.
Proof.
  unfold readCommand. destruct reader as [|p r]; [discriminate|].
  destruct (negb (isPrefix p "*")).
  - destruct (ReadString (String p r)) as [[line rest']|] eqn:E;
      [|discriminate].
    intros H. injection H as _ _ <-. now apply ReadString_shorter in E.
  - pose proof (readRESP_fuel_enough (String p r)) as He.
    destruct (readRESP (String p r)) as [[resp rest']| |]; try discriminate.
    apply (proj1 (readRESP_fuel_consumes _)) in He.
    destruct resp as [|s|[|[|s|l] tl]]; intros H; try discriminate H;
      injection H as _ _ <-; exact He.
Qed.

Lemma connectionLoop_fuel_returns (fuel : nat) :
  forall table server reader clock k,
    (String.length reader < fuel)%nat ->
    connectionLoop_fuel fuel table server reader clock k <> None.
Proof.
  induction fuel as [|f IH]; intros table server reader clock k Hf; [lia|].
  simpl. destruct (readCommand reader) as [[[cmd args] rest]| |] eqn:E;
    try discriminate.
  apply readCommand_shorter in E.
  destruct (String.eqb cmd EmptyString); [apply IH; lia|].
  destruct (handleCommands table server cmd args (clock k))
    as [[server' response]| |]; try discriminate.
  destruct (connectionLoop_fuel f table server' rest clock (S k))
    as [[[final written] ending]|] eqn:E2; [discriminate|].
  exfalso. revert E2. apply IH. lia.
Qed.

Lemma connectionLoop_fuel_mono (fuel : nat) :
  forall table server reader clock k r,
    connectionLoop_fuel fuel table server reader clock k = Some r ->
    connectionLoop_fuel (S fuel) table server reader clock k = Some r.
Proof.
  induction fuel as [|f IH]; intros table server reader clock k r H;
    [discriminate H|].
  change (connectionLoop_fuel (S f) table server reader clock k) with
    (match readCommand reader with
     | Err e => Some (server, EmptyString, Closed e)
     | Panic m => Some (server, EmptyString, Crashed m)
     | Ok (cmd, args, rest) =>
         if String.eqb cmd EmptyString
         then connectionLoop_fuel f table server rest clock k
         else
           match handleCommands table server cmd args (clock k) with
           | Ok (server', response) =>
               match connectionLoop_fuel f table server' rest clock (S k) with
               | Some (final, written, ending) =>
                   Some (final, response +:+ written, ending)
               | None => None
               end
           | Panic m => Some (server, EmptyString, Crashed m)
           | Err e => Some (server, EmptyString, Closed e)
           end
     end) in H.
  change (connectionLoop_fuel (S (S f)) table server reader clock k) with
    (match readCommand reader with
     | Err e => Some (server, EmptyString, Closed e)
     | Panic m => Some (server, EmptyString, Crashed m)
     | Ok (cmd, args, rest) =>
         if String.eqb cmd EmptyString
         then connectionLoop_fuel (S f) table server rest clock k
         else
           match handleCommands table server cmd args (clock k) with
           | Ok (server', response) =>
               match connectionLoop_fuel (S f) table server' rest clock (S k) with
               | Some (final, written, ending) =>
                   Some (final, response +:+ written, ending)
               | None => None
               end
           | Panic m => Some (server, EmptyString, Crashed m)
           | Err e => Some (server, EmptyString, Closed e)
           end
     end).
  destruct (readCommand reader) as [[[cmd args] rest]| |]; try exact H.
  destruct (String.eqb cmd EmptyString); [now apply IH|].
  destruct (handleCommands table server cmd args (clock k))
    as [[server' response]| |]; try exact H.
  destruct (connectionLoop_fuel f table server' rest clock (S k))
    as [r'|] eqn:E; [|discriminate H].
  now rewrite (IH _ _ _ _ _ _ E).
Qed.

Lemma connectionLoop_fuel_le (f f' : nat) table server reader clock k r :
  (f <= f')%nat ->
  connectionLoop_fuel f table server reader clock k = Some r ->
  connectionLoop_fuel f' table server reader clock k = Some r.
Proof.
  induction 1 as [|f' Hle IH]; intros H; [exact H|].
  apply connectionLoop_fuel_mono. now apply IH.
Qed.

Lemma connectionLoop_enough table server reader clock k :
  connectionLoop_fuel (S (String.length reader)) table server reader clock k
  = Some (connectionLoop table server reader clock k).
Proof.
  unfold connectionLoop.
  destruct (connectionLoop_fuel (S (String.length reader)) table server
              reader clock k) eqn:E; [reflexivity|].
  exfalso. revert E. apply connectionLoop_fuel_returns. lia.
Qed.

Lemma connectionLoop_fuel_connectionLoop f table server reader clock k r :
  connectionLoop_fuel f table server reader clock k = Some r ->
  connectionLoop table server reader clock k = r.
Proof.
  intros H. pose proof (connectionLoop_enough table server reader clock k) as He.
  destruct (Nat.le_ge_cases f (S (String.length reader))) as [Hle|Hle].
  - apply (connectionLoop_fuel_le _ _ _ _ _ _ _ _ Hle) in H. congruence.
  - apply (connectionLoop_fuel_le _ _ _ _ _ _ _ _ Hle) in He. congruence.
Qed.

(** One iteration of the loop, as the source has it. *)
Lemma connectionLoop_eq table server reader clock k :
  connectionLoop table server reader clock k =
  match readCommand reader with
  | Err e => (server, EmptyString, Closed e)
  | Panic m => (server, EmptyString, Crashed m)
  | Ok (cmd, args, rest) =>
      if String.eqb cmd EmptyString
      then connectionLoop table server rest clock k
      else
        match handleCommands table server cmd args (clock k) with
        | Ok (server', response) =>
            let '(final, written, ending) :=
              connectionLoop table server' rest clock (S k) in
            (final, response +:+ written, ending)
        | Panic m => (server, EmptyString, Crashed m)
        | Err e => (server, EmptyString, Closed e)
        end
  end.
Proof.
  apply (connectionLoop_fuel_connectionLoop (S (S (String.length reader)))).
  change (connectionLoop_fuel (S (S (String.length reader))) table server
            reader clock k) with
    (match readCommand reader with
     | Err e => Some (server, EmptyString, Closed e)
     | Panic m => Some (server, EmptyString, Crashed m)
     | Ok (cmd, args, rest) =>
         if String.eqb cmd EmptyString
         then connectionLoop_fuel (S (String.length reader)) table server
                rest clock k
         else
           match handleCommands table server cmd args (clock k) with
           | Ok (server', response) =>
               match connectionLoop_fuel (S (String.length reader)) table
                       server' rest clock (S k) with
               | Some (final, written, ending) =>
                   Some (final, response +:+ written, ending)
               | None => None
               end
           | Panic m => Some (server, EmptyString, Crashed m)
           | Err e => Some (server, EmptyString, Closed e)
           end
     end).
  destruct (readCommand reader) as [[[cmd args] rest]| |] eqn:E;
    try reflexivity.
  apply readCommand_shorter in E.
  assert (forall s k', connectionLoop_fuel (S (String.length reader)) table s
                         rest clock k'
                       = Some (connectionLoop table s rest clock k')) as Hrest.
  { intros s k'. apply (connectionLoop_fuel_le (S (String.length rest)));
      [lia | apply connectionLoop_enough]. }
  destruct (String.eqb cmd EmptyString); [apply Hrest|].
  destruct (handleCommands table server cmd args (clock k))
    as [[server' response]| |]; try reflexivity.
  rewrite Hrest.
  destruct (connectionLoop table server' rest clock (S k)) as [[? ?] ?].
  reflexivity.
Qed.










(** ** Replies *)

Lemma endsWithCRLF_app (a b : string) :
  endsWithCRLF b -> endsWithCRLF (a +:+ b).
Proof. intros [body ->]. exists (a +:+ body). now rewrite append_assoc. Qed.

Lemma endsWithCRLF_line (a : string) : endsWithCRLF (a +:+ CRLF).
Proof. now exists a. Qed.

Lemma bulkLoop_endsWithCRLF (l : list value) :
  Forall (fun v => endsWithCRLF (addReplyBulkValue v) \/ asString v <> None
                   \/ v = VNil) l ->
  forall reply,
    l <> [] \/ endsWithCRLF reply ->
    endsWithCRLF (bulkLoop l reply).
Proof.
  induction 1 as [|x l Hx Hl IH]; intros reply Hr.
  - destruct Hr as [Hr|Hr]; [congruence | exact Hr].
  - destruct x as [|s|elems]; simpl.
    + apply endsWithCRLF_line.
    + apply IH. right.
      repeat first [apply endsWithCRLF_line | apply endsWithCRLF_app].
    + destruct Hx as [Hx | [Hx | Hx]]; [exact Hx | now elim Hx | discriminate].
Qed.

Lemma addReplyBulkValue_endsWithCRLF (v : value) :
  forall elems, v = VArr elems -> endsWithCRLF (addReplyBulkValue v).
Proof.
  induction v as [|s|l IH] using value_ind_nested; intros elems E;
    try discriminate E.
  clear E elems. change (addReplyBulkValue (VArr l)) with (addReplyBulk l).
  rewrite addReplyBulk_eq. destruct l as [|x l]; [apply endsWithCRLF_line|].
  apply bulkLoop_endsWithCRLF; [|left; discriminate].
  induction IH as [|y l' Hy Hl' IHl]; constructor; [|exact IHl].
  destruct y as [|s|elems]; [right; now right | right; left; discriminate|].
  left. now apply (Hy elems).
Qed.

Lemma addReplyBulk_endsWithCRLF (args : list value) :
  endsWithCRLF (addReplyBulk args).
Proof. now apply (addReplyBulkValue_endsWithCRLF (VArr args) args). Qed.

(** Every reply the dispatcher produces, from any handler on any arguments
    and for unknown commands, ends with the line terminator [\r\n]. *)
Theorem handleCommands_reply_terminated (table : gmap string RedisCommand)
    (server server' : RedisServer) (cmd reply : string) (args : list value)
    (now : Z) :
  handleCommands table server cmd args now = Ok (server', reply) ->
  endsWithCRLF reply.
Proof.
  unfold handleCommands. intros H.
  destruct (table !! cmd) as [c|].
  - destruct (Function c) as [fn|]; [|discriminate H].
    injection H as H. apply (f_equal snd) in H. simpl in H. subst reply.
    destruct fn; simpl.
    + unfold handlePingCommand, addReply, addReplyErrorArity.
      break_handler; simpl;
        repeat first [ apply endsWithCRLF_line
                     | apply addReplyBulk_endsWithCRLF
                     | apply endsWithCRLF_app ].
    + unfold handleEchoCommand, addReplyErrorArity.
      break_handler; simpl;
        repeat first [ apply endsWithCRLF_line
                     | apply addReplyBulk_endsWithCRLF
                     | apply endsWithCRLF_app ].
    + unfold handleSetCommand, addReplyErrorArity.
      break_handler; simpl;
        repeat first [ apply endsWithCRLF_line
                     | apply addReplyBulk_endsWithCRLF
                     | apply endsWithCRLF_app ].
    + unfold handleGetCommand, addReplyErrorArity.
      break_handler; simpl;
        repeat first [ apply endsWithCRLF_line
                     | apply addReplyBulk_endsWithCRLF
                     | apply endsWithCRLF_app ].
  - injection H as _ <-.
    repeat first [apply endsWithCRLF_line | apply endsWithCRLF_app].
Qed.

Lemma handleCommands_reply_terminated_witness :
  endsWithCRLF (addReplyBulk [VArr [VStr "a"; VArr []]]).
Proof.
  apply (handleCommands_reply_terminated (loadCommandsFromJSON sampleFiles)
           newRedisServer newRedisServer "PING"
           (addReplyBulk [VArr [VStr "a"; VArr []]])
           [VArr [VStr "a"; VArr []]] 0).
  vm_compute. reflexivity.
Defined.

(** ** PING under another name *)

(** The acknowledgement of the ping handler is tied to the registry key
    [PING]: when a descriptor binds the ping handler to any other name, a
    request of that name without arguments is answered with
    [-ERR Unknown command <name>], not with [+PONG]. *)
Theorem handleCommands_ping_alias (files : list (string * fileContent))
    (command : RedisCommand) (server : RedisServer) (name : string)
    (now : Z) :
  loadCommandsFromJSON files !! name = Some command ->
  Function command = Some fnPing ->
  name <> "PING" ->
  handleCommands (loadCommandsFromJSON files) server name [] now
  = Ok (server, "-ERR Unknown command " +:+ name +:+ CRLF).
Proof.
  intros Hc Hf Hne.
  pose proof (loadCommandsFromJSON_namedByKey files _ _ Hc) as Hname.
  unfold handleCommands. rewrite Hc, Hf. simpl.
  unfold handlePingCommand. simpl. rewrite Hc. simpl.
  unfold addReply. rewrite Hname.
  apply String.eqb_neq in Hne. now rewrite Hne.
Qed.

Lemma handleCommands_ping_alias_witness :
  handleCommands
    (loadCommandsFromJSON [("hello.json", Parsed [("HELLO", sampleInfo "pingCommand")])])
    newRedisServer "HELLO" [] 0
  = Ok (newRedisServer, "-ERR Unknown command " +:+ "HELLO" +:+ CRLF).
Proof.
  apply (handleCommands_ping_alias
           [("hello.json", Parsed [("HELLO", sampleInfo "pingCommand")])]
           (makeCommand "HELLO" (sampleInfo "pingCommand"))
           newRedisServer "HELLO" 0).
  - vm_compute. reflexivity.
  - reflexivity.
  - discriminate.
Defined.


(** ** Blank lines *)

Lemma isSpace_not_star (c : ascii) :
  isSpace c = true -> isPrefix c "*" = false.
Proof.
  destruct c as [[] [] [] [] [] [] [] []]; vm_compute; intros H;
    first [discriminate H | reflexivity].
Qed.

Lemma ReadString_blank (ws rest : string) :
  allBlank ws = true ->
  ReadString (ws +:+ String LF rest) = Some (ws +:+ String LF EmptyString, rest).
Proof.
  induction ws as [|c ws IH]; intros H; [reflexivity|].
  simpl in H. apply andb_prop in H as [H Hws]. apply andb_prop in H as [_ Hlf].
  apply negb_true_iff in Hlf.
  rewrite !append_String. simpl. now rewrite Hlf, (IH Hws).
Qed.

Lemma trimRight_blank (ws : string) :
  allBlank ws = true -> trimRight (ws +:+ String LF EmptyString) = EmptyString.
Proof.
  induction ws as [|c ws IH]; intros H; [reflexivity|].
  simpl in H. apply andb_prop in H as [H Hws]. apply andb_prop in H as [Hsp _].
  rewrite append_String. simpl. now rewrite (IH Hws), Hsp.
Qed.

Lemma readCommand_blank (ws rest : string) :
  allBlank ws = true ->
  readCommand (ws +:+ String LF rest) = Ok (EmptyString, [], rest).
Proof.
  intros H. pose proof (ReadString_blank ws rest H) as HR.
  pose proof (trimRight_blank ws H) as HT.
  unfold readCommand.
  destruct (ws +:+ String LF rest) as [|c r] eqn:E.
  - destruct ws; discriminate E.
  - assert (isPrefix c "*" = false) as ->.
    { destruct ws as [|c' ws].
      - rewrite append_empty_l in E. now injection E as <- _.
      - rewrite append_String in E. injection E as <- _.
        simpl in H. apply andb_prop in H as [H _].
        apply andb_prop in H as [Hsp _]. now apply isSpace_not_star. }
    simpl negb. cbv iota. rewrite HR. unfold TrimSpace. now rewrite HT.
Qed.

(** A line of white space only is skipped by the connection: nothing is
    dispatched, nothing is written, and the loop goes on with the bytes
    after the line. *)
Theorem handleConnection_blank_line (table : gmap string RedisCommand)
    (server : RedisServer) (ws rest : string) (clock : nat -> Z) :
  allBlank ws = true ->
  handleConnection table server (ws +:+ String LF rest) clock
  = handleConnection table server rest clock.
Proof.
  intros H. unfold handleConnection.
  rewrite connectionLoop_eq, readCommand_blank by assumption. reflexivity.
Qed.

Lemma handleConnection_blank_line_witness :
  handleConnection (loadCommandsFromJSON sampleFiles) newRedisServer
    (CRLF +:+ "PING" +:+ CRLF) (fun _ => 0)
  = handleConnection (loadCommandsFromJSON sampleFiles) newRedisServer
      ("PING" +:+ CRLF) (fun _ => 0).
Proof.
  apply (handleConnection_blank_line (loadCommandsFromJSON sampleFiles)
           newRedisServer (String CR EmptyString) ("PING" +:+ CRLF)
           (fun _ => 0)).
  reflexivity.
Defined.

(** The three requests of the worked scenario on one connection. *)
Example handleConnection_scenario :
  handleConnection (loadCommandsFromJSON sampleFiles) newRedisServer
    (encodeCommand ["SET"; "foo"; "bar"] +:+ encodeCommand ["GET"; "foo"]
       +:+ "PING" +:+ CRLF)
    (fun k => Z.of_nat k)
  = (fst (handleSetCommand newRedisServer "SET" [VStr "foo"; VStr "bar"] 0),
     "+OK" +:+ CRLF +:+ "$3" +:+ CRLF +:+ "bar" +:+ CRLF +:+ "+PONG" +:+ CRLF,
     Closed EOF).
Proof. vm_compute. reflexivity. Qed.
